(** * DeepLX Translate filter: text masking, table splitting and the hooks

    A shallow embedding of [deeplx_translate.py] (class [Filter]) and the
    properties of its text pipeline.

    Python strings are sequences of code points: a character is an [N], a
    string a [list N].  The three patterns of the source are written as
    abstract syntax and run by a backtracking matcher with the priorities of
    Python's [re] module; [re.findall], [re.sub] and [re.split] are defined
    on top of the scanner of that module. *)

From Stdlib Require Import String Ascii.
From Stdlib Require Import List NArith ZArith Bool Arith Lia.
Import ListNotations.

Set Implicit Arguments.

(** ** Characters and strings *)

Definition char := N.
Definition str := list char.

Module Utf8.

(** Source literals are written as Rocq strings (UTF-8 bytes) and decoded
    to code points, as Python does when it reads the source file. *)

Definition byte_of (a : ascii) : N := N_of_ascii a.

Definition cont_bits (b : N) : N := N.land b 63.

Fixpoint decode_bytes (n : nat) (l : list N) : str :=
  match n with
  | O => []
  | S n' =>
    match l with
    | [] => []
    | b0 :: l0 =>
      if (b0 <? 128)%N then b0 :: decode_bytes n' l0
      else if (b0 <? 224)%N then
        match l0 with
        | b1 :: l1 =>
          (N.land b0 31 * 64 + cont_bits b1)%N :: decode_bytes n' l1
        | _ => []
        end
      else if (b0 <? 240)%N then
        match l0 with
        | b1 :: b2 :: l2 =>
          (N.land b0 15 * 4096 + cont_bits b1 * 64 + cont_bits b2)%N
            :: decode_bytes n' l2
        | _ => []
        end
      else
        match l0 with
        | b1 :: b2 :: b3 :: l3 =>
          (N.land b0 7 * 262144 + cont_bits b1 * 4096
           + cont_bits b2 * 64 + cont_bits b3)%N :: decode_bytes n' l3
        | _ => []
        end
    end
  end.

Definition decode (s : string) : str :=
  let bytes := map byte_of (list_ascii_of_string s) in
  decode_bytes (length bytes) bytes.

End Utf8.

Notation "'u' s" := (Utf8.decode s%string) (at level 1, s at level 0, only parsing).

Definition newline : char := 10%N.
Definition space : char := 32%N.
Definition backslash : char := 92%N.
Definition backtick : char := 96%N.

Fixpoint str_eqb (a b : str) : bool :=
  match a, b with
  | [], [] => true
  | x :: a', y :: b' => N.eqb x y && str_eqb a' b'
  | _, _ => false
  end.

(** [s.startswith(p)] *)
Fixpoint is_prefix (p s : str) : bool :=
  match p with
  | [] => true
  | x :: p' =>
    match s with
    | [] => false
    | y :: s' => N.eqb x y && is_prefix p' s'
    end
  end.

(** [p in s] *)
Fixpoint str_in (p s : str) : bool :=
  is_prefix p s ||
  match s with
  | [] => false
  | _ :: s' => str_in p s'
  end.

(** [s.replace(old, new, 1)] for a non-empty [old]: the leftmost occurrence
    is replaced, a string without occurrence is returned as it is. *)
Fixpoint replace_first (old new s : str) : str :=
  if is_prefix old s then new ++ skipn (length old) s
  else match s with
       | [] => []
       | c :: s' => c :: replace_first old new s'
       end.

(** [s.replace(old, new)] for a one-character [old]. *)
Definition replace_char (old : char) (new : str) (s : str) : str :=
  flat_map (fun c => if N.eqb c old then new else [c]) s.

(** [s.count(p)] for a non-empty [p]: occurrences are counted from the left
    and do not overlap; [busy] is the number of characters of the last
    counted occurrence still to be skipped. *)
Fixpoint count_from (p : str) (busy : nat) (s : str) : nat :=
  match s with
  | [] => 0
  | _ :: s' =>
    match busy with
    | S b => count_from p b s'
    | O => if is_prefix p s then S (count_from p (length p - 1) s')
           else count_from p 0 s'
    end
  end.

Definition str_count (p s : str) : nat := count_from p 0 s.

(** ** A backtracking matcher for the patterns of the source *)

Module Re.

(** The constructs that occur in the three patterns.  Each pattern has one
    capturing group, so a single capture slot is kept. *)
Inductive regex : Type :=
| Empty                                 (* the empty alternative *)
| Lit (c : char)                        (* a literal character *)
| Dot (dotall : bool)                   (* [.], with or without re.DOTALL *)
| NoneOf (cs : list char)               (* [[^...]] *)
| Bol                                   (* [^] under re.MULTILINE *)
| Seq (r1 r2 : regex)
| Alt (r1 r2 : regex)                   (* [r1|r2], left first *)
| Star (greedy : bool) (r : regex)      (* [r*] and [r*?] *)
| Plus (greedy : bool) (r : regex)      (* [r+] and [r+?] *)
| Group (r : regex)                     (* [(r)], group 1 *)
| Ahead (r : regex).                    (* [(?=r)] *)

(** A match state: the character before the position ([None] at the start
    of the text), the rest of the text, and the content of group 1. *)
Definition result : Type := option char * str * option str.
Definition cont : Type := option char -> str -> option str -> option result.

Definition orelse (a b : option result) : option result :=
  match a with
  | Some x => Some x
  | None => b
  end.

(** Repetition of [body].  An iteration has to consume a character before
    the next one is tried, so [length s] iterations are enough; the greedy
    loop tries one more iteration before leaving, the lazy loop leaves
    first. *)
Fixpoint repeat_loop (body : cont -> cont) (greedy : bool) (k : cont)
         (n : nat) (prev : option char) (s : str) (cap : option str)
  : option result :=
  match n with
  | O => k prev s cap
  | S n' =>
    let again :=
      body (fun p s' c =>
              if length s' <? length s
              then repeat_loop body greedy k n' p s' c
              else None) prev s cap in
    if greedy then orelse again (k prev s cap)
    else orelse (k prev s cap) again
  end.

Fixpoint m (r : regex) (k : cont) (prev : option char) (s : str)
         (cap : option str) {struct r} : option result :=
  match r with
  | Empty => k prev s cap
  | Lit c =>
    match s with
    | x :: s' => if N.eqb x c then k (Some x) s' cap else None
    | [] => None
    end
  | Dot dotall =>
    match s with
    | x :: s' =>
      if dotall || negb (N.eqb x newline) then k (Some x) s' cap else None
    | [] => None
    end
  | NoneOf cs =>
    match s with
    | x :: s' =>
      if existsb (N.eqb x) cs then None else k (Some x) s' cap
    | [] => None
    end
  | Bol =>
    match prev with
    | None => k prev s cap
    | Some x => if N.eqb x newline then k prev s cap else None
    end
  | Seq r1 r2 => m r1 (m r2 k) prev s cap
  | Alt r1 r2 => orelse (m r1 k prev s cap) (m r2 k prev s cap)
  | Star g r' => repeat_loop (m r') g k (length s) prev s cap
  | Plus g r' =>
    m r' (fun p s1 c => repeat_loop (m r') g k (length s1) p s1 c)
      prev s cap
  | Group r' =>
    m r' (fun p s' _ => k p s' (Some (firstn (length s - length s') s)))
      prev s cap
  | Ahead r' =>
    match m r' (fun p s' c => Some (p, s', c)) prev s cap with
    | Some (_, _, c') => k prev s c'
    | None => None
    end
  end.

(** One match attempt at the current position.  [must_advance] is the
    scanner's flag of the same name: set after an empty match, it refuses
    an empty match at the position where the scan resumes.  The answer is
    the matched text, group 1, the rest and the character before it. *)
Definition match_at (r : regex) (must_advance : bool) (prev : option char)
           (s : str) : option (str * option str * str * option char) :=
  match m r (fun p s' c =>
               if must_advance && (length s' =? length s) then None
               else Some (p, s', c)) prev s None with
  | Some (p, s', c) => Some (firstn (length s - length s') s, c, s', p)
  | None => None
  end.

(** [pattern.search]: the leftmost position with a match; the skipped text
    comes first in the answer. *)
Fixpoint search (r : regex) (must_advance : bool) (prev : option char)
         (s : str) : option (str * str * option str * str * option char) :=
  match match_at r must_advance prev s with
  | Some (mt, g, rest, p) => Some ([], mt, g, rest, p)
  | None =>
    match s with
    | [] => None
    | x :: s' =>
      match search r false (Some x) s' with
      | Some (skip, mt, g, rest, p) => Some (x :: skip, mt, g, rest, p)
      | None => None
      end
    end
  end.

(** The successive matches of [r] in a text, each with the text skipped
    before it, and the text after the last match. *)
Fixpoint finditer (n : nat) (r : regex) (must_advance : bool)
         (prev : option char) (s : str)
  : list (str * str * option str) * str :=
  match n with
  | O => ([], s)
  | S n' =>
    match search r must_advance prev s with
    | None => ([], s)
    | Some (skip, mt, g, rest, p) =>
      let (l, tl) :=
        finditer n' r (match mt with [] => true | _ => false end) p rest in
      ((skip, mt, g) :: l, tl)
    end
  end.

(** Two scanner steps per character are enough: an empty match is followed
    by a step that consumes. *)
Definition scan (r : regex) (s : str) : list (str * str * option str) * str :=
  finditer (2 * length s + 2) r false None s.

Definition group1 (g : option str) : str :=
  match g with
  | Some x => x
  | None => []
  end.

(** [re.findall] for a pattern with one group: the list of the group's
    contents. *)
Definition findall (r : regex) (s : str) : list str :=
  map (fun x : str * str * option str => group1 (snd x)) (fst (scan r s)).

(** [re.sub] with a function of the matched text ([m.group(0)]) as
    replacement. *)
Definition sub (r : regex) (repl : str -> str) (s : str) : str :=
  let (l, tl) := scan r s in
  flat_map (fun x : str * str * option str =>
              fst (fst x) ++ repl (snd (fst x))) l ++ tl.

(** [re.split] for a pattern with one group: the pieces between the
    matches, with group 1 of each match after the piece before it. *)
Definition split (r : regex) (s : str) : list str :=
  let (l, tl) := scan r s in
  flat_map (fun x : str * str * option str =>
              [fst (fst x); group1 (snd x)]) l ++ [tl].

(** Three measures of a pattern used to state what a match looks like:
    the characters it may consume, the least number of characters it
    consumes, and whether it is free of capturing groups. *)
Fixpoint chars_ok (P : char -> Prop) (r : regex) : Prop :=
  match r with
  | Empty => True
  | Bol => True
  | Lit c => P c
  | Dot _ => forall c, P c
  | NoneOf cs => forall c, existsb (N.eqb c) cs = false -> P c
  | Seq r1 r2 => chars_ok P r1 /\ chars_ok P r2
  | Alt r1 r2 => chars_ok P r1 /\ chars_ok P r2
  | Star _ r' => chars_ok P r'
  | Plus _ r' => chars_ok P r'
  | Group r' => chars_ok P r'
  | Ahead _ => True
  end.

Fixpoint min_len (r : regex) : nat :=
  match r with
  | Empty => 0
  | Bol => 0
  | Lit _ => 1
  | Dot _ => 1
  | NoneOf _ => 1
  | Seq r1 r2 => min_len r1 + min_len r2
  | Alt r1 r2 => Nat.min (min_len r1) (min_len r2)
  | Star _ _ => 0
  | Plus _ r' => min_len r'
  | Group r' => min_len r'
  | Ahead _ => 0
  end.

(** Whether every match of the pattern holds the character [c]. *)
Fixpoint needs (c : char) (r : regex) : bool :=
  match r with
  | Lit c' => N.eqb c' c
  | Seq r1 r2 => needs c r1 || needs c r2
  | Alt r1 r2 => needs c r1 && needs c r2
  | Plus _ r' => needs c r'
  | Group r' => needs c r'
  | _ => false
  end.

Fixpoint no_group (r : regex) : bool :=
  match r with
  | Empty => true
  | Bol => true
  | Lit _ => true
  | Dot _ => true
  | NoneOf _ => true
  | Seq r1 r2 => no_group r1 && no_group r2
  | Alt r1 r2 => no_group r1 && no_group r2
  | Star _ r' => no_group r'
  | Plus _ r' => no_group r'
  | Group _ => false
  | Ahead r' => no_group r'
  end.

End Re.

(** ** The patterns of the source *)

(** The pattern [```(.*?)```], used with [re.DOTALL]. *)
Definition code_regex : Re.regex :=
  Re.Seq (Re.Lit backtick) (Re.Seq (Re.Lit backtick) (Re.Seq (Re.Lit backtick)
  (Re.Seq (Re.Group (Re.Star false (Re.Dot true)))
  (Re.Seq (Re.Lit backtick) (Re.Seq (Re.Lit backtick) (Re.Lit backtick)))))).

(** The item [.*?] without [re.DOTALL]. *)
Definition lazy_dots : Re.regex := Re.Star false (Re.Dot false).

(** The raw string [((?:^.*?\\|.*?\\n)+)(?=\\n[^\\|\\s].*?\\|)], used with
    [re.MULTILINE].  In a raw string [\\] is the pattern of one backslash, so
    the bars are alternations: the repeated group is [^.*?\\] or [.*?\\n]
    (a backslash, then the letter n), and the lookahead is
    [\\n[^\\|\\s].*?\\] or the empty pattern; the class excludes the
    backslash, the bar and the letter s. *)

Definition table_regex : Re.regex :=
  Re.Seq
    (Re.Group
       (Re.Plus true
          (Re.Alt (Re.Seq Re.Bol (Re.Seq lazy_dots (Re.Lit backslash)))
                  (Re.Seq lazy_dots
                     (Re.Seq (Re.Lit backslash) (Re.Lit 110%N))))))
    (Re.Ahead
       (Re.Alt
          (Re.Seq (Re.Lit backslash) (Re.Seq (Re.Lit 110%N)
          (Re.Seq (Re.NoneOf [backslash; 124%N; backslash; 115%N])
          (Re.Seq lazy_dots (Re.Lit backslash)))))
          Re.Empty)).

(** The raw string of [clean_table_delimiters], item by item:
    [( \\ | \\ s* -+ \\ s* )+].  The repeated group is one backslash, or a
    backslash, letters s, dashes, a backslash and letters s. *)
Definition delimiter_regex : Re.regex :=
  Re.Plus true
    (Re.Group
       (Re.Alt (Re.Lit backslash)
               (Re.Seq (Re.Lit backslash)
               (Re.Seq (Re.Star true (Re.Lit 115%N))
               (Re.Seq (Re.Plus true (Re.Lit 45%N))
               (Re.Seq (Re.Lit backslash) (Re.Star true (Re.Lit 115%N)))))))).

(** ** Literals of the source *)

(** The token that stands for a code block, and the fence mark. *)
Definition placeholder : str := Eval vm_compute in u "__CODE_BLOCK__".
Definition fence_mark : str := Eval vm_compute in u "```".

(** The placeholder without its last two underscores.  A text without this
    stem holds no placeholder and no ending that a placeholder put after it
    completes into one. *)
Definition placeholder_stem : str := Eval vm_compute in u "__CODE_BLOCK".

(** The tag the hooks look for, an opening bracket, 翻译失败 and a colon. *)
Definition failure_tag : str := Eval vm_compute in u "[翻译失败:".

(** The text between [{text}] and [{error_msg}] in the two fallback strings:
    the literal has four backslashes before each n, that is two backslash
    characters and the letter n, twice, then the tag and a blank. *)
Definition failure_open : str := Eval vm_compute in u "\\n\\n[翻译失败: ".
Definition failure_close : str := Eval vm_compute in u "]".

(** The two prefixes of [error_msg]. *)
Definition api_error_label : str := Eval vm_compute in u "翻译API错误: ".
Definition unexpected_label : str :=
  Eval vm_compute in u "翻译过程中发生意外错误: ".

(** The two roles and the key of the translated text. *)
Definition user_role : str := Eval vm_compute in u "user".
Definition assistant_role : str := Eval vm_compute in u "assistant".
Definition data_key : str := Eval vm_compute in u "data".

(** The f-string that wraps [code] in two fence marks. *)
Definition fence (code : str) : str := fence_mark ++ code ++ fence_mark.

(** ** The translation client *)

(** Python values that a JSON document decodes to. *)
#[warnings="-register-all"]
Inductive json : Type :=
| JNull
| JBool (b : bool)
| JNum (n : Z)
| JStr (s : str)
| JArr (l : list json)
| JObj (fields : list (str * json)).

(** Exceptions, by the class that decides which handler of [translate]
    catches them, with the text of [str(e)]. *)
Inductive exn_class : Type :=
| RequestException      (* requests.exceptions.RequestException and subclasses *)
| KeyError
| TypeError
| OtherException.

Record exn : Type := { cls : exn_class; descr : str }.

Definition is_request_exception (e : exn) : bool :=
  match cls e with
  | RequestException => true
  | _ => false
  end.

Record request : Type :=
  { req_url : str; req_text : str; req_source : str; req_target : str }.

(** A response: its status, the text of the [HTTPError] that
    [raise_for_status] builds for an error status, and what [r.json()]
    does: raise, or return the decoded document. *)
Record response : Type :=
  { status_code : Z; status_error : str; body_json : exn + json }.

Inductive post_outcome : Type :=
| PostRaises (e : exn)        (* connection error, timeout, ... *)
| PostReturns (r : response).

(** The outside world: what [requests.post] does for each request. *)
Definition network : Type := request -> post_outcome.

(** [r.raise_for_status()] *)
Definition raise_for_status (r : response) : option exn :=
  if ((400 <=? status_code r) && (status_code r <? 600))%Z
  then Some {| cls := RequestException; descr := status_error r |}
  else None.

(** The subscript of [result] by the key data. *)
Definition subscript_data (j : json) : exn + json :=
  match j with
  | JObj fields =>
    match find (fun kv => str_eqb (fst kv) data_key) fields with
    | Some kv => inr (snd kv)
    | None => inl {| cls := KeyError; descr := u "'data'" |}
    end
  | JNull =>
    inl {| cls := TypeError;
           descr := u "'NoneType' object is not subscriptable" |}
  | JBool _ =>
    inl {| cls := TypeError; descr := u "'bool' object is not subscriptable" |}
  | JNum _ =>
    inl {| cls := TypeError; descr := u "'int' object is not subscriptable" |}
  | JStr _ =>
    inl {| cls := TypeError;
           descr := u "string indices must be integers, not 'str'" |}
  | JArr _ =>
    inl {| cls := TypeError;
           descr := u "list indices must be integers or slices, not str" |}
  end.

(** The body of the [try]: post, [raise_for_status], [r.json()],
    the subscript by data. *)
Definition try_body (net : network) (req : request) : exn + json :=
  match net req with
  | PostRaises e => inl e
  | PostReturns r =>
    match raise_for_status r with
    | Some e => inl e
    | None =>
      match body_json r with
      | inl e => inl e
      | inr result => subscript_data result
      end
    end
  end.

(** The string both handlers return. *)
Definition fallback (text error_msg : str) : str :=
  text ++ failure_open ++ error_msg ++ failure_close.

Definition translate (net : network) (api_url : str)
           (text source target : str) : json :=
  match try_body net {| req_url := api_url; req_text := text;
                        req_source := source; req_target := target |} with
  | inr translated_text => translated_text
  | inl e =>
    if is_request_exception e
    then JStr (fallback text (api_error_label ++ descr e))
    else JStr (fallback text (unexpected_label ++ descr e))
  end.

(** ** Table splitting and delimiter cleaning *)

Definition split_text_around_table (text : str) : str * str :=
  let matches := Re.split table_regex text in
  if 1 <? length matches
  then (nth 0 matches [], nth 1 matches [])
  else (text, []).

Definition clean_table_delimiters (text : str) : str :=
  Re.sub delimiter_regex (replace_char space [45%N]) text.

(** ** Code blocks *)

(** [re.findall(code_regex, text, flags=re.DOTALL)] *)
Definition find_code_blocks (text : str) : list str :=
  Re.findall code_regex text.

(** [re.sub] of [code_regex] by the placeholder, with [re.DOTALL]. *)
Definition mask_code_blocks (text : str) : str :=
  Re.sub code_regex (fun _ => placeholder) text.

(** The loop [for code in self.code_blocks: ... .replace(..., 1)]. *)
Definition restore_code_blocks (code_blocks : list str) (text : str) : str :=
  fold_left (fun acc code => replace_first placeholder (fence code) acc)
            code_blocks text.

(** ** The hooks *)

Record valves : Type :=
  { api_url : str;
    source_user : str; target_user : str;
    source_assistant : str; target_assistant : str }.

Record filter : Type := { the_valves : valves; code_blocks : list str }.

Record message : Type := { role : str; content : str }.

Definition set_content (x : message) (c : str) : message :=
  {| role := role x; content := c |}.

(** Modelled from the spec: [get_last_user_message] and
    [get_last_assistant_message] are imported from [open_webui.utils.misc],
    which is not among the sources.  The spec has them locate the most
    recent message of the role, scanning the list from the end; as in that
    library, the result is the content of that message, or None when the
    list has no message of the role. *)
Definition get_last_message (r : str) (messages : list message)
  : option str :=
  option_map content (find (fun x => str_eqb (role x) r) (rev messages)).

(** The loop over the reversed messages of the body, on the reversed list: the
    first message of the role is the last one visited. *)
Fixpoint commit_loop (r : str) (translated : str) (l : list message)
  : list message :=
  match l with
  | [] => []
  | x :: l' =>
    if str_eqb (role x) r
    then (if str_in failure_tag translated then x
          else set_content x translated) :: l'
    else x :: commit_loop r translated l'
  end.

Inductive outcome : Type :=
| Returned
| Raised (e : exn).

(** What a hook leaves behind: the filter object, the message list of the
    body (mutated in place by the hook) and how the call ended. *)
Record hook_result : Type :=
  { self_after : filter;
    messages_after : list message;
    ended : outcome }.

(** The name of the Python type a JSON value decodes to. *)
Definition type_name (j : json) : str :=
  match j with
  | JNull => u "NoneType"
  | JBool _ => u "bool"
  | JNum _ => u "int"
  | JStr _ => u "str"
  | JArr _ => u "list"
  | JObj _ => u "dict"
  end.

(** The text of the TypeError that [j + table_text] raises when [j] is no
    string; the list has a text of its own, with str in double quotes. *)
Definition concat_error (j : json) : str :=
  match j with
  | JArr _ =>
    u "can only concatenate list (not " ++ [34%N] ++ u "str" ++ [34%N]
      ++ u ") to list"
  | _ =>
    u "unsupported operand type(s) for +: '" ++ type_name j ++ u "' and 'str'"
  end.

(** The text the hook computes between the test of the languages and the
    loop over the messages; [translate] may give back any JSON value, and
    [+] with a string raises for everything but a string. *)
Definition translated_message (net : network) (v : valves)
           (source target : str) (processed : str) (blocks : list str)
  : exn + str :=
  let (text_before_table, table_text) := split_text_around_table processed in
  match translate net (api_url v) text_before_table source target with
  | JStr translated_before_table =>
    inr (restore_code_blocks blocks
           (clean_table_delimiters (translated_before_table ++ table_text)))
  | j => inl {| cls := TypeError; descr := concat_error j |}
  end.

(** [inlet] and [outlet] are the same text up to the role and the pair of
    languages. *)
Definition hook (r : str) (source target : valves -> str)
           (net : network) (self : filter) (messages : list message)
  : hook_result :=
  match get_last_message r messages with
  | None =>
    (* re.findall on None *)
    {| self_after := self; messages_after := messages;
       ended := Raised {| cls := TypeError;
                          descr := u "expected string or bytes-like object, got 'NoneType'" |} |}
  | Some last_message =>
    let v := the_valves self in
    let blocks := find_code_blocks last_message in
    let self' := {| the_valves := v; code_blocks := blocks |} in
    let processed := mask_code_blocks last_message in
    if negb (str_eqb (source v) (target v)) then
      match translated_message net v (source v) (target v) processed blocks with
      | inr translated =>
        {| self_after := self';
           messages_after := rev (commit_loop r translated (rev messages));
           ended := Returned |}
      | inl e =>
        {| self_after := self'; messages_after := messages; ended := Raised e |}
      end
    else
      {| self_after := self'; messages_after := messages; ended := Returned |}
  end.

Definition inlet : network -> filter -> list message -> hook_result :=
  hook user_role source_user target_user.

Definition outlet : network -> filter -> list message -> hook_result :=
  hook assistant_role source_assistant target_assistant.

(** * Vocabulary of the statements *)

(** ** Matches of a pattern *)

(** What a successful run of a pattern under a continuation amounts to:
    a piece [w] of the text was consumed and the continuation succeeded
    on the rest. *)
Definition consumed (P : char -> Prop) (lo : nat) (keeps_cap : bool)
           (k : Re.cont) (s : str) (cap : option str) (res : Re.result) : Prop :=
  exists w s' p' c',
    s = w ++ s' /\ k p' s' c' = Some res /\ Forall P w /\
    lo <= length w /\ (keeps_cap = true -> c' = cap).

(** Two continuations that agree on every rest of at most [n] characters. *)
Definition agree (n : nat) (k1 k2 : Re.cont) : Prop :=
  forall p s c, length s <= n -> k1 p s c = k2 p s c.

(** A pattern body only calls its continuation on what is left of the
    text, and fails when its continuation always fails. *)
Definition respects (body : Re.cont -> Re.cont) : Prop :=
  forall k1 k2 prev s cap,
    agree (length s) k1 k2 -> body k1 prev s cap = body k2 prev s cap.

Definition fails_with (body : Re.cont -> Re.cont) : Prop :=
  forall prev s cap, body (fun _ _ _ => None) prev s cap = None.

(** The text between two matches, a match and its group. *)
Definition piece : Type := str * str * option str.

Definition skipped (x : piece) : str := fst (fst x).

Definition matched (x : piece) : str := snd (fst x).

Definition captured (x : piece) : option str := snd x.

(** A piece of the scan for [code_regex]: the match is the captured code
    between two fence marks. *)
Definition code_piece (x : piece) : Prop :=
  exists code, captured x = Some code /\ matched x = fence code.

(** The text with the matches kept, and with the matches masked. *)
Definition join_matched (l : list piece) (tl : str) : str :=
  flat_map (fun x => skipped x ++ matched x) l ++ tl.

Definition join_masked (l : list piece) (tl : str) : str :=
  flat_map (fun x => skipped x ++ placeholder) l ++ tl.

(** The groups of the pieces, as [re.findall] lists them. *)
Definition stash_of (l : list piece) : list str :=
  map (fun x => Re.group1 (captured x)) l.

(** The character before the position reached after [a]. *)
Definition char_before (prev : option char) (a : str) : option char :=
  fold_left (fun _ x => Some x) a prev.

(** The positions where [^] holds under re.MULTILINE. *)
Definition line_start (prev : option char) : Prop :=
  prev = None \/ prev = Some newline.

Definition always_succeeds (k : Re.cont) : Prop :=
  forall p s c, k p s c <> None.

(** ** The failing call *)

(** The statuses for which [raise_for_status] raises. *)
Definition error_status (code : Z) : Prop := (400 <= code < 600)%Z.

(** What Python says when a document that is no object is subscripted by a
    string. *)
Definition subscript_error (doc : json) : str :=
  match doc with
  | JNull => u "'NoneType' object is not subscriptable"
  | JBool _ => u "'bool' object is not subscriptable"
  | JNum _ => u "'int' object is not subscriptable"
  | JStr _ => u "string indices must be integers, not 'str'"
  | JArr _ => u "list indices must be integers or slices, not str"
  | JObj _ => []
  end.

(** The ways the outbound call fails, each told from the outcome of the
    post alone, with the exception that reaches the handlers: the post
    raises; the status is between 400 and 599; the body is not JSON; the
    document is an object without the key data; the document is no object.
    A document with an entry under data is no failure, whatever the entry
    is. *)
Inductive call_fails (net : network) (req : request) : exn -> Prop :=
| network_failure e :
    net req = PostRaises e -> call_fails net req e
| http_error_status resp :
    net req = PostReturns resp -> error_status (status_code resp) ->
    call_fails net req {| cls := RequestException;
                          descr := status_error resp |}
| unparsable_response resp e :
    net req = PostReturns resp -> ~ error_status (status_code resp) ->
    body_json resp = inl e -> call_fails net req e
| missing_data_key resp fields :
    net req = PostReturns resp -> ~ error_status (status_code resp) ->
    body_json resp = inr (JObj fields) ->
    Forall (fun kv => fst kv <> data_key) fields ->
    call_fails net req {| cls := KeyError; descr := u "'data'" |}
| document_is_no_object resp doc :
    net req = PostReturns resp -> ~ error_status (status_code resp) ->
    body_json resp = inr doc -> (forall fields, doc <> JObj fields) ->
    call_fails net req {| cls := TypeError; descr := subscript_error doc |}.

(** [error_msg] as the handler that catches [e] builds it. *)
Definition error_msg (e : exn) : str :=
  (if is_request_exception e then api_error_label else unexpected_label)
    ++ descr e.

(** The annotation put after the text: the separator, the tag, a blank, the
    error message and the closing bracket. *)
Definition failure_annotation (e : exn) : str :=
  [backslash; backslash; 110; backslash; backslash; 110]%N
    ++ failure_tag ++ [space] ++ error_msg e ++ failure_close.

(** ** Contracts of the hooks *)

(** The type of [inlet] and [outlet]. *)
Definition hook_fn : Type := network -> filter -> list message -> hook_result.

(** The request a hook sends for the last message [last] of its role. *)
Definition client_request (v : valves) (source target : valves -> str)
           (last : str) : request :=
  {| req_url := api_url v;
     req_text := fst (split_text_around_table (mask_code_blocks last));
     req_source := source v; req_target := target v |}.

(** C3 for one hook: with different languages and a located message, a
    failing client leaves the messages as they were and the call returns;
    and whatever text the hook comes to test, a text with the tag is not
    written and a text without it replaces the content of the located
    message, the last one of the role. *)
Definition commits_unless_tagged (r : str) (source target : valves -> str)
           (h : hook_fn) : Prop :=
  forall net self messages last,
    source (the_valves self) <> target (the_valves self) ->
    get_last_message r messages = Some last ->
    let v := the_valves self in
    (forall e,
        try_body net (client_request v source target last) = inl e ->
        exists fb,
          translate net (api_url v)
                    (fst (split_text_around_table (mask_code_blocks last)))
                    (source v) (target v) = JStr fb /\
          str_in failure_tag fb = true /\
          messages_after (h net self messages) = messages /\
          ended (h net self messages) = Returned) /\
    (forall tr,
        translated_message net v (source v) (target v)
                           (mask_code_blocks last) (find_code_blocks last)
        = inr tr ->
        ended (h net self messages) = Returned /\
        (str_in failure_tag tr = true ->
         messages_after (h net self messages) = messages) /\
        (str_in failure_tag tr = false ->
         exists l1 x l2,
           messages = l1 ++ x :: l2 /\ role x = r /\
           Forall (fun y => role y <> r) l2 /\ content x = last /\
           messages_after (h net self messages)
           = l1 ++ set_content x tr :: l2)).

(** C5 (amended) for one hook: without a message of the role no message is
    changed; in general the messages are left as they were, or the last
    message of the role, and only its content, was changed. *)
Definition touches_last_only (r : str) (h : hook_fn) : Prop :=
  forall net self messages,
    (Forall (fun y => role y <> r) messages ->
     messages_after (h net self messages) = messages) /\
    (messages_after (h net self messages) = messages \/
     exists l1 x l2 c,
       messages = l1 ++ x :: l2 /\ role x = r /\
       Forall (fun y => role y <> r) l2 /\
       messages_after (h net self messages) = l1 ++ set_content x c :: l2).

(** C6 for one hook. *)
Definition noop_on_same_language (source target : valves -> str)
           (h : hook_fn) : Prop :=
  forall net self messages,
    source (the_valves self) = target (the_valves self) ->
    messages_after (h net self messages) = messages.

(** C10 for one hook: the client returned the data of a well-formed answer,
    no fallback, and the tag in it makes the hook keep the old content. *)
Definition tag_blocks_genuine_translation (r : str)
           (source target : valves -> str) (h : hook_fn) : Prop :=
  forall net self messages last d,
    source (the_valves self) <> target (the_valves self) ->
    get_last_message r messages = Some last ->
    try_body net (client_request (the_valves self) source target last)
    = inr (JStr d) ->
    str_in failure_tag d = true ->
    translate net (api_url (the_valves self))
              (fst (split_text_around_table (mask_code_blocks last)))
              (source (the_valves self)) (target (the_valves self))
    = JStr d /\
    messages_after (h net self messages) = messages /\
    ended (h net self messages) = Returned.

(** ** Sample data *)

(** The message of the end-to-end example of the spec. *)
Definition hello_message : str :=
  Eval vm_compute in u "Hello ```print(1)``` world".

(** A text that ends with the placeholder stem right before a fence. *)
Definition stem_before_fence : str :=
  Eval vm_compute in u "__CODE_BLOCK```x```".

(** The defaults of [Valves], and a filter built from them. *)
Definition default_valves : valves :=
  Eval vm_compute in
  {| api_url := u "https://deeplx.mingming.dev/translate";
     source_user := u "auto"; target_user := u "en";
     source_assistant := u "en"; target_assistant := u "zh" |}.

Definition fresh_filter : filter :=
  {| the_valves := default_valves; code_blocks := [] |}.

(** A filter whose two directions have the same language on both sides. *)
Definition english_only : filter :=
  Eval vm_compute in
  {| the_valves :=
       {| api_url := u "https://deeplx.mingming.dev/translate";
          source_user := u "en"; target_user := u "en";
          source_assistant := u "en"; target_assistant := u "en" |};
     code_blocks := [] |}.

(** The exception of a post that cannot connect. *)
Definition connection_refused : exn :=
  Eval vm_compute in
  {| cls := RequestException; descr := u "connection refused" |}.

(** A network where every post raises. *)
Definition unreachable : network := fun _ => PostRaises connection_refused.

(** A service that answers every request with the same document. *)
Definition answering (doc : json) : network :=
  fun _ => PostReturns {| status_code := 200; status_error := [];
                          body_json := inr doc |}.

(** A conversation of two turns; the last user message has a code block. *)
Definition chat : list message :=
  Eval vm_compute in
  [ {| role := user_role; content := u "hi" |};
    {| role := assistant_role; content := u "Hello ```print(1)``` world" |};
    {| role := user_role; content := u "你好 ```print(1)```" |};
    {| role := assistant_role; content := u "Hello" |} ].

(** A genuine translation that quotes the tag. *)
Definition quoting_translation : str :=
  Eval vm_compute in u "What does [翻译失败: timeout] mean?".

Definition quoting_service : network :=
  Eval vm_compute in
  answering (JObj [(u "code", JNum 200); (u "data", JStr quoting_translation)]).

(** A plain answer of the service. *)
Definition greeting_service : network :=
  Eval vm_compute in
  answering (JObj [(u "code", JNum 200); (u "data", JStr (u "Hello __CODE_BLOCK__"))]).

(** A user who asks about a failure note quoted in a code block, and a
    service that translates the masked question. *)
Definition error_question : list message :=
  Eval vm_compute in
  [ {| role := user_role; content := u "这是什么意思？```[翻译失败: 超时]```" |} ].

Definition masked_answer : str :=
  Eval vm_compute in u "What does this mean? __CODE_BLOCK__".

Definition answering_masked : network :=
  Eval vm_compute in
  answering (JObj [(u "code", JNum 200); (u "data", JStr masked_answer)]).

(** A document whose data entry is null. *)
Definition null_service : network :=
  Eval vm_compute in answering (JObj [(u "data", JNull)]).

(** A service that answers every request with the text it was sent. *)
Definition echo_service : network :=
  fun req =>
    PostReturns {| status_code := 200; status_error := [];
                   body_json := inr (JObj [(data_key, JStr (req_text req))]) |}.

(** A service that is down: an error status, with a body all the same. *)
Definition unavailable_service : network :=
  Eval vm_compute in
  fun _ => PostReturns
             {| status_code := 503;
                status_error := u "503 Server Error";
                body_json := inr (JObj [(u "data", JStr (u "Hello"))]) |}.

(** A service that answers with a page that is no JSON. *)
Definition html_service : network :=
  Eval vm_compute in
  fun _ => PostReturns
             {| status_code := 200; status_error := [];
                body_json := inl {| cls := RequestException;
                                    descr := u "Expecting value" |} |}.

(** A refusal without a data entry, and a document that is a list. *)
Definition quota_service : network :=
  Eval vm_compute in
  answering (JObj [(u "code", JNum 429);
                   (u "message", JStr (u "too many requests"))]).

Definition list_service : network :=
  Eval vm_compute in answering (JArr []).

(** A Markdown table: a header line, a separator line, a row. *)
Definition table_header : str := Eval vm_compute in u "| a | b |" ++ [newline].

Definition table_separator : str :=
  Eval vm_compute in u "|---|---|" ++ [newline].

Definition table_row : str := Eval vm_compute in u "| 1 | 2 |" ++ [newline].

Definition markdown_table : str :=
  Eval vm_compute in table_header ++ table_separator ++ table_row.


(** A text with a backslash and no bar. *)
Definition windows_path : str := Eval vm_compute in u "C:\Users".

(** A separator line with blanks around its dashes. *)
Definition spaced_separator : str := Eval vm_compute in u "| --- | --- |".

(** * Properties *)

(** ** The matcher *)

Section MatcherSoundness.

Import Re.

Lemma consumed_weaken P lo lo' kc kc' k s cap res :
  lo' <= lo -> (kc' = true -> kc = true) ->
  consumed P lo kc k s cap res -> consumed P lo' kc' k s cap res.
Proof.
  intros Hlo Hkc (w & s' & p' & c' & E & K & F & L & C).
  exists w, s', p', c'. repeat split; auto. lia.
Qed.

Lemma consumed_seq P lo1 lo2 kc1 kc2 (k1 k : cont) s cap res :
  consumed P lo1 kc1 k1 s cap res ->
  (forall p s1 c, k1 p s1 c = Some res -> consumed P lo2 kc2 k s1 c res) ->
  consumed P (lo1 + lo2) (kc1 && kc2) k s cap res.
Proof.
  intros (w & s' & p' & c' & E & K & F & L & C) H.
  destruct (H _ _ _ K) as (w2 & s2 & p2 & c2 & E2 & K2 & F2 & L2 & C2).
  exists (w ++ w2), s2, p2, c2. repeat split.
  - subst. now rewrite app_assoc.
  - exact K2.
  - apply Forall_app. now split.
  - rewrite length_app. lia.
  - intros B. apply andb_true_iff in B. destruct B as [B1 B2].
    rewrite (C2 B2). now apply C.
Qed.

Lemma consumed_nothing P (k : cont) prev s cap res :
  k prev s cap = Some res -> consumed P 0 true k s cap res.
Proof.
  intros K. exists [], s, prev, cap. repeat split; auto.
Qed.

Lemma repeat_loop_sound P (body : cont -> cont) (kc : bool) :
  (forall k prev s cap res,
      body k prev s cap = Some res -> consumed P 0 kc k s cap res) ->
  forall g n k prev s cap res,
    repeat_loop body g k n prev s cap = Some res ->
    consumed P 0 kc k s cap res.
Proof.
  intros Hbody g n. induction n as [|n IH]; intros k prev s cap res H.
  - simpl in H. apply consumed_weaken with (lo := 0) (kc := true); auto.
    now apply consumed_nothing with (prev := prev).
  - simpl in H.
    assert (Hstop : k prev s cap = Some res -> consumed P 0 kc k s cap res).
    { intros K. apply consumed_weaken with (lo := 0) (kc := true); auto.
      now apply consumed_nothing with (prev := prev). }
    assert (Hagain :
              body (fun p s' c =>
                      if length s' <? length s
                      then repeat_loop body g k n p s' c else None)
                   prev s cap = Some res -> consumed P 0 kc k s cap res).
    { intros A. apply Hbody in A.
      apply (consumed_weaken (lo := 0 + 0) (kc := kc && kc)); [lia | | ].
      - intros ->. reflexivity.
      - eapply consumed_seq; [exact A|].
        intros p s1 c K. simpl in K.
        destruct (length s1 <? length s); [|discriminate].
        now apply IH in K. }
    destruct g; unfold orelse in H.
    + destruct (body _ prev s cap) eqn:A.
      * inversion H; subst. now apply Hagain.
      * now apply Hstop.
    + destruct (k prev s cap) eqn:K.
      * inversion H; subst. now apply Hstop.
      * now apply Hagain.
Qed.

Lemma chars_ok_top r : chars_ok (fun _ => True) r.
Proof.
  induction r; simpl; auto.
Qed.

Lemma m_sound r :
  forall P, chars_ok P r ->
  forall k prev s cap res,
    m r k prev s cap = Some res ->
    consumed P (min_len r) (no_group r) k s cap res.
Proof.
  induction r as [ | c | d | cs | | r1 IH1 r2 IH2 | r1 IH1 r2 IH2
                   | g r IH | g r IH | r IH | r IH ];
    intros P Hok k prev s cap res H; simpl in *.
  - now apply consumed_nothing with (prev := prev).
  - destruct s as [|x s']; [discriminate|].
    destruct (N.eqb_spec x c); [|discriminate]. subst.
    exists [c], s', (Some c), cap. repeat split; auto.
  - destruct s as [|x s']; [discriminate|].
    destruct (d || negb (x =? newline)%N); [|discriminate].
    exists [x], s', (Some x), cap. repeat split; auto.
  - destruct s as [|x s']; [discriminate|].
    destruct (existsb (N.eqb x) cs) eqn:E; [discriminate|].
    exists [x], s', (Some x), cap. repeat split; auto.
  - assert (K : k prev s cap = Some res).
    { destruct prev as [x|]; [|exact H].
      destruct (x =? newline)%N; [exact H|discriminate]. }
    now apply consumed_nothing with (prev := prev).
  - destruct Hok as [H1 H2].
    apply (IH1 P H1) in H.
    eapply consumed_seq; [exact H|].
    intros p s1 c K. now apply (IH2 P H2) in K.
  - destruct Hok as [H1 H2]. unfold orelse in H.
    destruct (m r1 k prev s cap) eqn:A.
    + inversion H; subst.
      apply (consumed_weaken (lo := min_len r1) (kc := no_group r1)).
      * apply Nat.le_min_l.
      * intros B. now apply andb_true_iff in B.
      * now apply (IH1 P H1) in A.
    + apply (consumed_weaken (lo := min_len r2) (kc := no_group r2)).
      * apply Nat.le_min_r.
      * intros B. now apply andb_true_iff in B.
      * now apply (IH2 P H2) in H.
  - apply repeat_loop_sound with (P := P) (kc := no_group r) in H;
      [exact H|].
    intros k0 p0 s0 c0 r0 K.
    apply (consumed_weaken (lo := min_len r) (kc := no_group r));
      [lia | auto | now apply (IH P Hok) in K].
  - apply (consumed_weaken (lo := min_len r + 0)
                           (kc := no_group r && no_group r)).
    + lia.
    + intros ->. reflexivity.
    + apply (IH P Hok) in H.
      eapply consumed_seq; [exact H|].
      intros p s1 c K.
      apply repeat_loop_sound with (P := P) (kc := no_group r) in K;
        [exact K|].
      intros k0 p0 s0 c0 r0 K0.
      apply (consumed_weaken (lo := min_len r) (kc := no_group r));
        [lia | auto | now apply (IH P Hok) in K0].
  - apply (IH P Hok) in H.
    destruct H as (w & s' & p' & c' & E & K & F & L & C).
    exists w, s', p', (Some (firstn (length s - length s') s)).
    repeat split; auto. discriminate.
  - destruct (m r (fun p s' c => Some (p, s', c)) prev s cap)
      as [[[p1 s1] c1]|] eqn:A; [|discriminate].
    apply (IH _ (chars_ok_top r)) in A.
    destruct A as (w & s' & p' & c' & E & K & F & L & C).
    inversion K; subst p' s' c'.
    exists [], s, prev, c1. repeat split; auto.
Qed.

(** The capture made by a group is the text the group consumed. *)
Lemma m_group_sound P r :
  chars_ok P r ->
  forall k prev s cap res,
    m (Group r) k prev s cap = Some res ->
    exists w s' p',
      s = w ++ s' /\ k p' s' (Some w) = Some res /\ Forall P w /\
      min_len r <= length w.
Proof.
  intros Hok k prev s cap res H. simpl in H.
  apply (m_sound r P Hok) in H.
  destruct H as (w & s' & p' & c' & E & K & F & L & C).
  exists w, s', p'. repeat split; auto.
  subst s. rewrite length_app in K.
  replace (length w + length s' - length s') with (length w) in K by lia.
  rewrite firstn_app, firstn_all, Nat.sub_diag in K. simpl in K.
  now rewrite app_nil_r in K.
Qed.

End MatcherSoundness.

(** ** The fuel of the repetition is enough *)

Section RepeatFuel.

Import Re.

Lemma agree_le n n' k1 k2 : n' <= n -> agree n k1 k2 -> agree n' k1 k2.
Proof.
  intros L A p s c H. apply A. lia.
Qed.

Lemma repeat_loop_respects body g n :
  respects body ->
  forall k1 k2 prev s cap,
    agree (length s) k1 k2 ->
    repeat_loop body g k1 n prev s cap = repeat_loop body g k2 n prev s cap.
Proof.
  intros Hb. induction n as [|n IH]; intros k1 k2 prev s cap A; simpl.
  - now apply A.
  - rewrite (A prev s cap (Nat.le_refl _)).
    rewrite (Hb _ (fun p s' c =>
                     if length s' <? length s
                     then repeat_loop body g k2 n p s' c else None)); auto.
    intros p s' c L.
    destruct (Nat.ltb_spec (length s') (length s)); [|reflexivity].
    apply IH. apply agree_le with (n := length s); [lia|exact A].
Qed.

Lemma m_respects r : respects (m r).
Proof.
  induction r as [ | c | d | cs | | r1 IH1 r2 IH2 | r1 IH1 r2 IH2
                   | g r IH | g r IH | r IH | r IH ];
    intros k1 k2 prev s cap A; simpl.
  - now apply A.
  - destruct s as [|x s']; [reflexivity|].
    destruct (x =? c)%N; [|reflexivity]. apply A. simpl. lia.
  - destruct s as [|x s']; [reflexivity|].
    destruct (d || negb (x =? newline)%N); [|reflexivity].
    apply A. simpl. lia.
  - destruct s as [|x s']; [reflexivity|].
    destruct (existsb (N.eqb x) cs); [reflexivity|]. apply A. simpl. lia.
  - rewrite (A prev s cap (Nat.le_refl _)). reflexivity.
  - apply IH1. intros p s' c L. apply IH2.
    apply agree_le with (n := length s); assumption.
  - now rewrite (IH1 k1 k2 prev s cap A), (IH2 k1 k2 prev s cap A).
  - now apply repeat_loop_respects.
  - apply IH. intros p s' c L. apply repeat_loop_respects; [exact IH|].
    apply agree_le with (n := length s); assumption.
  - apply IH. intros p s' c L. now apply A.
  - destruct (m r _ prev s cap) as [[[p1 s1] c1]|]; [|reflexivity].
    now apply A.
Qed.

Lemma m_fails_with r : fails_with (m r).
Proof.
  intros prev s cap.
  destruct (m r (fun _ _ _ => None) prev s cap) eqn:E; [|reflexivity].
  apply m_sound with (P := fun _ => True) in E; [|apply chars_ok_top].
  destruct E as (w & s' & p' & c' & _ & K & _). discriminate.
Qed.

(** One more round of fuel than the length of the text changes nothing:
    the loop of [Star] and [Plus] ends because an iteration fails or
    consumes nothing, never for lack of fuel. *)
Lemma repeat_loop_fuel body g k :
  respects body -> fails_with body ->
  forall n prev s cap,
    length s <= n ->
    repeat_loop body g k n prev s cap
    = repeat_loop body g k (S n) prev s cap.
Proof.
  intros Hr Hf n. induction n as [|n IH]; intros prev s cap L.
  - destruct s; [|simpl in L; lia].
    simpl. rewrite Hf. destruct g; simpl; [reflexivity|].
    now destruct (k prev [] cap).
  - change (repeat_loop body g k (S n) prev s cap)
      with (let again :=
              body (fun p s' c =>
                      if length s' <? length s
                      then repeat_loop body g k n p s' c else None)
                   prev s cap in
            if g then orelse again (k prev s cap)
            else orelse (k prev s cap) again).
    change (repeat_loop body g k (S (S n)) prev s cap)
      with (let again :=
              body (fun p s' c =>
                      if length s' <? length s
                      then repeat_loop body g k (S n) p s' c else None)
                   prev s cap in
            if g then orelse again (k prev s cap)
            else orelse (k prev s cap) again).
    cbv zeta.
    rewrite (Hr _ (fun p s' c =>
                     if length s' <? length s
                     then repeat_loop body g k (S n) p s' c else None));
      [reflexivity|].
    intros p s' c _.
    destruct (Nat.ltb_spec (length s') (length s)); [|reflexivity].
    apply IH. lia.
Qed.

Lemma star_fuel g r (k : cont) n prev s cap :
  length s <= n ->
  repeat_loop (m r) g k n prev s cap = m (Star g r) k prev s cap.
Proof.
  simpl. intros L.
  replace n with ((n - length s) + length s) by lia.
  induction (n - length s) as [|d IH]; [reflexivity|].
  simpl plus. rewrite <- IH. symmetry.
  apply repeat_loop_fuel; [apply m_respects|apply m_fails_with|lia].
Qed.

End RepeatFuel.

(** ** The scanner *)

Section Scanner.

Import Re.

Variable r : regex.
Variable P : char -> Prop.
Hypothesis r_ok : chars_ok P r.

(** A match attempt splits the text into the match and the rest. *)
Lemma match_at_sound ma prev s mt g rest p :
  match_at r ma prev s = Some (mt, g, rest, p) ->
  s = mt ++ rest /\ Forall P mt /\ min_len r <= length mt /\
  (ma = true -> mt <> []).
Proof.
  unfold match_at. intros H.
  destruct (m r _ prev s None) as [[[p1 s1] c1]|] eqn:M; [|discriminate].
  inversion H; subst; clear H.
  apply (m_sound r P r_ok) in M.
  destruct M as (w & s' & p' & c' & E & K & F & L & _).
  destruct (ma && (length s' =? length s)) eqn:G; [discriminate|].
  inversion K; subst p' s' c'; clear K.
  assert (W : firstn (length s - length rest) s = w).
  { subst s. rewrite length_app.
    replace (length w + length rest - length rest) with (length w) by lia.
    rewrite firstn_app, firstn_all, Nat.sub_diag. simpl.
    apply app_nil_r. }
  rewrite W. repeat split; auto.
  intros -> ->. subst s. simpl in G. now rewrite Nat.eqb_refl in G.
Qed.

Variable Phi : str -> option str -> Prop.
Hypothesis match_at_Phi :
  forall ma prev s mt g rest p,
    match_at r ma prev s = Some (mt, g, rest, p) -> Phi mt g.

Lemma search_sound s :
  forall ma prev skip mt g rest p,
    search r ma prev s = Some (skip, mt, g, rest, p) ->
    s = skip ++ mt ++ rest /\ Forall P mt /\ min_len r <= length mt /\
    Phi mt g.
Proof.
  induction s as [|x s IH]; intros ma prev skip mt g rest p H; simpl in H.
  - destruct (match_at r ma prev []) as [[[[mt' g'] rest'] p']|] eqn:M;
      [|discriminate].
    inversion H; subst; clear H.
    pose proof (match_at_Phi _ _ _ M).
    apply match_at_sound in M. simpl. tauto.
  - destruct (match_at r ma prev (x :: s)) as [[[[mt' g'] rest'] p']|] eqn:M.
    + inversion H; subst; clear H.
      pose proof (match_at_Phi _ _ _ M).
      apply match_at_sound in M. simpl. tauto.
    + destruct (search r false (Some x) s)
        as [[[[[skip' mt'] g'] rest'] p']|] eqn:S; [|discriminate].
      inversion H; subst; clear H.
      apply IH in S. destruct S as (E & F & L & Ph).
      simpl. rewrite <- E. tauto.
Qed.

(** The scan cuts the text into pieces and a tail; nothing is lost. *)
Lemma finditer_sound n :
  forall ma prev s l tl,
    finditer n r ma prev s = (l, tl) ->
    s = flat_map (fun x => skipped x ++ matched x) l ++ tl /\
    Forall (fun x => Forall P (matched x) /\
                     min_len r <= length (matched x) /\
                     Phi (matched x) (captured x)) l.
Proof.
  induction n as [|n IH]; intros ma prev s l tl H; simpl in H.
  - inversion H; subst. simpl. auto.
  - destruct (search r ma prev s)
      as [[[[[skip mt] g] rest] p]|] eqn:S.
    + destruct (finditer n r _ p rest) as [l' tl'] eqn:F.
      inversion H; subst; clear H.
      apply IH in F. destruct F as [E Fa].
      apply search_sound in S. destruct S as (E' & Fm & L & Ph).
      split.
      * simpl. unfold skipped at 1, matched at 1. simpl.
        rewrite <- !app_assoc, <- E. exact E'.
      * constructor; auto.
    + inversion H; subst. simpl. auto.
Qed.

End Scanner.

(** ** The fuel of the scanner is enough *)

Lemma search_advances r s :
  forall ma prev skip mt g rest p,
    Re.search r ma prev s = Some (skip, mt, g, rest, p) ->
    s = skip ++ mt ++ rest /\ (ma = true -> skip = [] -> mt <> []).
Proof.
  intros ma prev skip mt g rest p H. split.
  - apply search_sound
      with (P := fun _ => True) (Phi := fun _ _ => True) in H;
      [tauto|apply chars_ok_top|auto].
  - intros Hma Hskip. subst skip.
    assert (M : Re.match_at r ma prev s = Some (mt, g, rest, p)).
    { destruct s as [|x s]; simpl in H;
        destruct (Re.match_at r ma prev _) as [[[[mt' g'] rest'] p']|];
        try congruence.
      destruct (Re.search r false (Some x) s)
        as [[[[[skip' mt'] g'] rest'] p']|]; discriminate. }
    apply match_at_sound with (P := fun _ => True) in M;
      [|apply chars_ok_top].
    now apply M.
Qed.

(** More fuel than two steps per character changes nothing: the scan of
    [Re.scan] ends because the text is used up, never for lack of fuel. *)
Lemma finditer_fuel r n :
  forall n' (ma : bool) prev s,
    2 * length s + (if ma then 1 else 2) <= n ->
    2 * length s + (if ma then 1 else 2) <= n' ->
    Re.finditer n r ma prev s = Re.finditer n' r ma prev s.
Proof.
  induction n as [|n IH]; intros n' ma prev s Hn Hn'.
  - destruct ma; lia.
  - destruct n' as [|n']; [destruct ma; lia|].
    simpl.
    destruct (Re.search r ma prev s)
      as [[[[[skip mt] g] rest] p]|] eqn:S; [|reflexivity].
    apply search_advances in S. destruct S as [E A].
    assert (L : length s = length skip + length mt + length rest).
    { rewrite E, !length_app. lia. }
    rewrite (IH n' (match mt with [] => true | _ => false end) p rest);
      [reflexivity| |].
    + destruct mt as [|y mt]; simpl in *.
      * destruct ma; [|lia].
        destruct skip as [|z skip]; [now destruct (A eq_refl eq_refl)|].
        simpl in *. lia.
      * destruct ma; lia.
    + destruct mt as [|y mt]; simpl in *.
      * destruct ma; [|lia].
        destruct skip as [|z skip]; [now destruct (A eq_refl eq_refl)|].
        simpl in *. lia.
      * destruct ma; lia.
Qed.

Lemma scan_fuel r s n :
  2 * length s + 2 <= n -> Re.finditer n r false None s = Re.scan r s.
Proof.
  intros H. unfold Re.scan. apply finditer_fuel; simpl; lia.
Qed.

(** ** Code blocks: what a match of [code_regex] is *)

Lemma m_lit_inv c (k : Re.cont) prev s cap res :
  Re.m (Re.Lit c) k prev s cap = Some res ->
  exists s', s = c :: s' /\ k (Some c) s' cap = Some res.
Proof.
  simpl. destruct s as [|x s']; [discriminate|].
  destruct (N.eqb_spec x c); [|discriminate]. subst.
  intros H. now exists s'.
Qed.

Lemma code_regex_match ma prev s mt g rest p :
  Re.match_at code_regex ma prev s = Some (mt, g, rest, p) ->
  exists code, g = Some code /\ mt = fence code.
Proof.
  intros H.
  pose proof (match_at_sound code_regex (fun _ => True)
                (chars_ok_top code_regex) _ _ _ H) as (E & _).
  unfold Re.match_at in H.
  destruct (Re.m code_regex _ prev s None) as [[[p1 s1] c1]|] eqn:M;
    [|discriminate].
  injection H as _ Hg Hrest Hp. subst p1 s1 c1.
  unfold code_regex in M.
  change (Re.m (Re.Seq ?a ?b) ?k) with (Re.m a (Re.m b k)) in M.
  apply m_lit_inv in M. destruct M as (s1 & E1 & M).
  change (Re.m (Re.Seq ?a ?b) ?k) with (Re.m a (Re.m b k)) in M.
  apply m_lit_inv in M. destruct M as (s2 & E2 & M).
  change (Re.m (Re.Seq ?a ?b) ?k) with (Re.m a (Re.m b k)) in M.
  apply m_lit_inv in M. destruct M as (s3 & E3 & M).
  change (Re.m (Re.Seq ?a ?b) ?k) with (Re.m a (Re.m b k)) in M.
  apply m_group_sound with (P := fun _ => True) in M; [|exact (fun _ => I)].
  destruct M as (w & s4 & p4 & E4 & M & _).
  change (Re.m (Re.Seq ?a ?b) ?k) with (Re.m a (Re.m b k)) in M.
  apply m_lit_inv in M. destruct M as (s5 & E5 & M).
  change (Re.m (Re.Seq ?a ?b) ?k) with (Re.m a (Re.m b k)) in M.
  apply m_lit_inv in M. destruct M as (s6 & E6 & M).
  apply m_lit_inv in M. destruct M as (s7 & E7 & M).
  destruct (ma && (length s7 =? length s)); [discriminate|].
  injection M as Hp Hrest Hg. subst g rest p.
  exists w. split; [reflexivity|].
  apply app_inv_tail with (l := s7).
  rewrite <- E, E1, E2, E3, E4, E5, E6, E7.
  unfold fence, fence_mark, backtick.
  simpl. now rewrite <- !app_assoc.
Qed.

(** ** Substrings *)

Lemma is_prefix_app p x : is_prefix p (p ++ x) = true.
Proof.
  induction p as [|c p IH]; simpl; [reflexivity|].
  now rewrite N.eqb_refl, IH.
Qed.

Lemma is_prefix_app_r p s x : is_prefix p s = true -> is_prefix p (s ++ x) = true.
Proof.
  revert s. induction p as [|c p IH]; intros s H; simpl in *; [reflexivity|].
  destruct s as [|y s]; [discriminate|]. simpl.
  apply andb_true_iff in H. destruct H as [H1 H2].
  now rewrite H1, IH.
Qed.

Lemma is_prefix_shorter a b s : is_prefix (a ++ b) s = true -> is_prefix a s = true.
Proof.
  revert s. induction a as [|c a IH]; intros s H; simpl in *; [reflexivity|].
  destruct s as [|y s]; [discriminate|].
  apply andb_true_iff in H. destruct H as [H1 H2].
  now rewrite H1, IH.
Qed.

(** A prefix test on [a ++ b] is decided inside [a] when [a] is long enough. *)
Lemma is_prefix_inside p a b :
  length p <= length a -> is_prefix p (a ++ b) = is_prefix p a.
Proof.
  revert a. induction p as [|c p IH]; intros a L; simpl in *; [reflexivity|].
  destruct a as [|y a]; simpl in *; [lia|].
  rewrite IH; [reflexivity|lia].
Qed.

(** When [a] is shorter than [p], the rest of [p] is tested on [b]. *)
Lemma is_prefix_across p a b :
  length a <= length p -> is_prefix p (a ++ b) = true ->
  is_prefix (skipn (length a) p) b = true.
Proof.
  revert p. induction a as [|y a IH]; intros p L H; simpl in *; [exact H|].
  destruct p as [|c p]; simpl in *; [lia|].
  apply andb_true_iff in H. destruct H as [_ H].
  apply IH; [lia|exact H].
Qed.

Lemma skipn_length_app (p x : str) : skipn (length p) (p ++ x) = x.
Proof.
  induction p; simpl; auto.
Qed.

Lemma str_in_app_false q a b :
  str_in q (a ++ b) = false -> str_in q a = false /\ str_in q b = false.
Proof.
  induction a as [|c a IH]; intros H.
  - simpl in H. split; [|exact H].
    simpl. destruct (is_prefix q []) eqn:E; [|reflexivity].
    apply is_prefix_app_r with (x := b) in E. simpl app in E.
    destruct b; simpl in H; now rewrite E in H.
  - simpl in H. apply orb_false_iff in H. destruct H as [H1 H2].
    destruct (IH H2) as [Ha Hb]. split; [|exact Hb].
    simpl. rewrite Ha, orb_false_r.
    destruct (is_prefix q (c :: a)) eqn:E; [|reflexivity].
    apply is_prefix_app_r with (x := b) in E. simpl in E.
    now rewrite E in H1.
Qed.

Lemma str_in_head_false q c s :
  str_in q (c :: s) = false -> is_prefix q (c :: s) = false /\ str_in q s = false.
Proof.
  simpl. intros H. now apply orb_false_iff in H.
Qed.

(** ** The placeholder and its shifts *)

(** No proper shift of the placeholder by less than twelve characters
    continues it: checked for every shift. *)
Lemma placeholder_shifts :
  forallb (fun n => negb (is_prefix (skipn n placeholder) placeholder))
          (seq 1 11) = true.
Proof. vm_compute. reflexivity. Qed.

(** An occurrence of the placeholder that begins in a text [t] put before
    a placeholder begins with the stem inside [t]. *)
Lemma no_straddle t x :
  t <> [] -> is_prefix placeholder_stem t = false ->
  is_prefix placeholder (t ++ placeholder ++ x) = false.
Proof.
  intros Hne Hstem.
  destruct (is_prefix placeholder (t ++ placeholder ++ x)) eqn:E;
    [exfalso|reflexivity].
  destruct (Nat.le_gt_cases 12 (length t)) as [L|L].
  - change placeholder with (placeholder_stem ++ [95; 95]%N) in E at 1.
    apply is_prefix_shorter in E.
    rewrite is_prefix_inside in E by exact L. congruence.
  - apply is_prefix_across in E;
      [|change (length placeholder) with 14; lia].
    rewrite is_prefix_inside in E.
    + pose proof placeholder_shifts as S.
      rewrite forallb_forall in S.
      specialize (S (length t)). rewrite E in S.
      assert (In (length t) (seq 1 11)); [|now apply S in H].
      apply in_seq. destruct t; [congruence|simpl in *; lia].
    + rewrite length_skipn. lia.
Qed.

Lemma replace_first_eq old new s :
  replace_first old new s =
  if is_prefix old s then new ++ skipn (length old) s
  else match s with
       | [] => []
       | c :: s' => c :: replace_first old new s'
       end.
Proof. destruct s; reflexivity. Qed.

Lemma count_from_eq p c s :
  count_from p 0 (c :: s) =
  if is_prefix p (c :: s) then S (count_from p (length p - 1) s)
  else count_from p 0 s.
Proof. reflexivity. Qed.

Lemma replace_first_stem_free new t x :
  str_in placeholder_stem t = false ->
  replace_first placeholder new (t ++ placeholder ++ x) = t ++ new ++ x.
Proof.
  induction t as [|c t IH]; intros H.
  - change ([] ++ placeholder ++ x) with (placeholder ++ x).
    rewrite replace_first_eq.
    now rewrite is_prefix_app, skipn_length_app.
  - apply str_in_head_false in H. destruct H as [H1 H2].
    rewrite replace_first_eq.
    rewrite no_straddle by (congruence || assumption).
    change ((c :: t) ++ placeholder ++ x)
      with (c :: (t ++ placeholder ++ x)).
    cbv iota. now rewrite IH.
Qed.

Lemma count_from_busy p a x :
  count_from p (length a) (a ++ x) = count_from p 0 x.
Proof.
  induction a as [|c a IH]; simpl; [|exact IH].
  destruct x; reflexivity.
Qed.

Lemma str_count_stem_free_tail t :
  str_in placeholder_stem t = false -> str_count placeholder t = 0.
Proof.
  unfold str_count. induction t as [|c t IH]; intros H; [reflexivity|].
  apply str_in_head_false in H. destruct H as [H1 H2].
  rewrite count_from_eq.
  destruct (is_prefix placeholder (c :: t)) eqn:E; [|now apply IH].
  change placeholder with (placeholder_stem ++ [95; 95]%N) in E.
  apply is_prefix_shorter in E. congruence.
Qed.

Lemma str_count_stem_free t x :
  str_in placeholder_stem t = false ->
  str_count placeholder (t ++ placeholder ++ x)
  = S (str_count placeholder x).
Proof.
  unfold str_count. induction t as [|c t IH]; intros H.
  - change ([] ++ placeholder ++ x)
      with (95%N :: (tl placeholder ++ x)).
    rewrite count_from_eq.
    change (95%N :: (tl placeholder ++ x)) with (placeholder ++ x).
    rewrite is_prefix_app. cbv iota.
    exact (f_equal S (count_from_busy placeholder (tl placeholder) x)).
  - apply str_in_head_false in H. destruct H as [H1 H2].
    change ((c :: t) ++ placeholder ++ x)
      with (c :: (t ++ placeholder ++ x)).
    rewrite count_from_eq.
    change (c :: (t ++ placeholder ++ x))
      with ((c :: t) ++ placeholder ++ x).
    rewrite no_straddle by (congruence || assumption).
    now apply IH.
Qed.

(** ** Masking and restoring code blocks *)

Lemma code_scan text l tl :
  Re.scan code_regex text = (l, tl) ->
  text = join_matched l tl /\ Forall code_piece l.
Proof.
  intros H. unfold Re.scan in H.
  apply finditer_sound
    with (P := fun _ => True)
         (Phi := fun mt g => exists code, g = Some code /\ mt = fence code)
    in H.
  - destruct H as [E F]. split; [exact E|].
    eapply Forall_impl; [|exact F].
    intros x (_ & _ & Hx). exact Hx.
  - apply chars_ok_top.
  - intros ma prev s mt g rest p M. eapply code_regex_match; exact M.
Qed.

Lemma extract_shape text :
  exists l tl,
    text = join_matched l tl /\ Forall code_piece l /\
    find_code_blocks text = stash_of l /\
    mask_code_blocks text = join_masked l tl.
Proof.
  unfold find_code_blocks, mask_code_blocks, Re.findall, Re.sub.
  destruct (Re.scan code_regex text) as [l tl] eqn:S.
  exists l, tl. apply code_scan in S. destruct S as [E F].
  repeat split; auto.
Qed.

Lemma restore_pieces l :
  forall d tl,
    Forall code_piece l ->
    str_in placeholder_stem (d ++ join_matched l tl) = false ->
    restore_code_blocks (stash_of l) (d ++ join_masked l tl)
    = d ++ join_matched l tl.
Proof.
  induction l as [|x l IH]; intros d tl F H.
  - reflexivity.
  - inversion F as [|? ? (code & Hc & Hm) F']; subst.
    unfold join_matched, join_masked in *. simpl flat_map in *.
    unfold stash_of. simpl map. rewrite Hc. simpl Re.group1.
    unfold restore_code_blocks. simpl fold_left.
    fold (restore_code_blocks (stash_of l)).
    rewrite Hm in *.
    replace (d ++ ((skipped x ++ placeholder) ++
                   flat_map (fun x0 => skipped x0 ++ placeholder) l) ++ tl)
      with ((d ++ skipped x) ++ placeholder ++
            (flat_map (fun x0 => skipped x0 ++ placeholder) l ++ tl))
      by now rewrite <- !app_assoc.
    replace (d ++ ((skipped x ++ fence code) ++
                   flat_map (fun x0 => skipped x0 ++ matched x0) l) ++ tl)
      with ((d ++ skipped x ++ fence code) ++
            (flat_map (fun x0 => skipped x0 ++ matched x0) l ++ tl)) in *
      by now rewrite <- !app_assoc.
    rewrite replace_first_stem_free.
    + replace ((d ++ skipped x) ++ fence code ++
               flat_map (fun x0 => skipped x0 ++ placeholder) l ++ tl)
        with ((d ++ skipped x ++ fence code) ++
              (flat_map (fun x0 => skipped x0 ++ placeholder) l ++ tl))
        by now rewrite <- !app_assoc.
      apply IH; assumption.
    + apply str_in_app_false in H. destruct H as [H _].
      rewrite app_assoc in H.
      apply str_in_app_false in H. now destruct H as [H _].
Qed.

Lemma count_pieces l :
  forall tl,
    str_in placeholder_stem (join_matched l tl) = false ->
    str_count placeholder (join_masked l tl) = length l.
Proof.
  induction l as [|x l IH]; intros tl H.
  - now apply str_count_stem_free_tail.
  - unfold join_matched, join_masked in *. simpl flat_map in *.
    rewrite <- !app_assoc in *.
    apply str_in_app_false in H. destruct H as [H1 H2].
    apply str_in_app_false in H2. destruct H2 as [_ H2].
    rewrite str_count_stem_free by exact H1.
    simpl length. f_equal. now apply IH.
Qed.

(** ** The delimiter pattern *)

Lemma replace_char_absent old new s :
  Forall (fun c => c <> old) s -> replace_char old new s = s.
Proof.
  unfold replace_char. induction 1 as [|c s Hc _ IH]; [reflexivity|].
  simpl. destruct (N.eqb_spec c old); [contradiction|].
  simpl. now rewrite IH.
Qed.

(** Every character that [delimiter_regex] consumes is a backslash, the
    letter s or a dash: a match holds no blank. *)
Lemma delimiter_regex_chars :
  Re.chars_ok (fun c => c <> space) delimiter_regex.
Proof.
  unfold delimiter_regex, backslash, space. simpl.
  repeat split; discriminate.
Qed.

(** With the pattern as it is written, the replacement function gives back
    every match, so [clean_table_delimiters] changes no text. *)
Lemma clean_table_delimiters_id (text : str) :
  clean_table_delimiters text = text.
Proof.
  unfold clean_table_delimiters, Re.sub.
  destruct (Re.scan delimiter_regex text) as [l tl] eqn:S.
  unfold Re.scan in S.
  apply finditer_sound
    with (P := fun c => c <> space) (Phi := fun _ _ => True) in S;
    [|exact delimiter_regex_chars|auto].
  destruct S as [E F]. rewrite E. f_equal.
  clear E. induction F as [|x l (Hx & _) _ IH]; [reflexivity|].
  simpl. rewrite IH. f_equal. f_equal.
  now apply replace_char_absent.
Qed.

(** ** The table pattern *)

(** A match of [table_regex] is not empty and is what group 1 captured:
    the lookahead consumes nothing. *)
Lemma table_regex_match ma prev s mt g rest p :
  Re.match_at table_regex ma prev s = Some (mt, g, rest, p) ->
  g = Some mt /\ mt <> [].
Proof.
  intros H.
  pose proof (match_at_sound table_regex (fun _ => True)
                (chars_ok_top table_regex) _ _ _ H) as (E & _ & L & _).
  split.
  - unfold Re.match_at in H.
    destruct (Re.m table_regex _ prev s None) as [[[p1 s1] c1]|] eqn:M;
      [|discriminate].
    injection H as _ Hg Hrest Hp. subst p1 s1 c1.
    unfold table_regex in M.
    change (Re.m (Re.Seq ?a ?b) ?k) with (Re.m a (Re.m b k)) in M.
    apply m_group_sound with (P := fun _ => True) in M;
      [|apply chars_ok_top].
    destruct M as (w & s' & p' & E' & M & _).
    match type of M with
    | Re.m (Re.Ahead ?r) ?k _ _ _ = _ =>
      change (match Re.m r (fun p0 s0 c0 => Some (p0, s0, c0)) p' s' (Some w)
              with
              | Some (_, _, c') => k p' s' c'
              | None => None
              end = Some (p, rest, g)) in M;
      destruct (Re.m r (fun p0 s0 c0 => Some (p0, s0, c0)) p' s' (Some w))
        as [[[p2 s2] c2]|] eqn:A; [|discriminate];
      apply m_sound with (P := fun _ => True) in A; [|apply chars_ok_top]
    end.
    destruct A as (w3 & s3 & p3 & c3 & _ & K & _ & _ & C).
    injection K as _ _ Hc. subst c3.
    rewrite (C eq_refl) in M.
    destruct (ma && (length s' =? length s)); [discriminate|].
    injection M as _ Hrest Hg. subst rest g. f_equal.
    apply app_inv_tail with (l := s'). congruence.
  - intros ->. simpl in L. lia.
Qed.

(** The split keeps a prefix of the text: what follows the first match is
    not returned. *)
Lemma split_text_around_table_shape (text : str) :
  exists rest,
    text = fst (split_text_around_table text)
           ++ snd (split_text_around_table text) ++ rest /\
    (snd (split_text_around_table text) = [] ->
     fst (split_text_around_table text) = text /\ rest = []).
Proof.
  unfold split_text_around_table, Re.split.
  destruct (Re.scan table_regex text) as [l tl] eqn:S.
  unfold Re.scan in S.
  apply finditer_sound
    with (P := fun _ => True) (Phi := fun mt g => g = Some mt /\ mt <> [])
    in S; [|apply chars_ok_top|].
  - destruct S as [E F]. destruct l as [|x l].
    + simpl. exists []. split; [now rewrite app_nil_r|auto].
    + pose proof (Forall_inv F) as (_ & _ & Hg & Hne).
      exists (join_matched l tl).
      change (captured x) with (snd x) in Hg.
      simpl. rewrite Hg. simpl.
      split.
      * unfold join_matched. simpl in E. rewrite <- !app_assoc in E.
        exact E.
      * intros Hm. now apply Hne in Hm.
  - intros ma prev s mt g rest p M. eapply table_regex_match; exact M.
Qed.

(** ** Texts without a backslash *)

Lemma m_needs c r :
  Re.needs c r = true ->
  forall k prev s cap res, Re.m r k prev s cap = Some res -> In c s.
Proof.
  induction r as [ | c' | d | cs | | r1 IH1 r2 IH2 | r1 IH1 r2 IH2
                   | g r IH | g r IH | r IH | r IH ];
    intros N k prev s cap res H; simpl in N; try discriminate.
  - apply N.eqb_eq in N. subst c'.
    apply m_lit_inv in H. destruct H as (s' & -> & _). now left.
  - simpl in H. apply orb_true_iff in N. destruct N as [N|N].
    + eapply IH1; eauto.
    + apply m_sound with (P := fun _ => True) in H; [|apply chars_ok_top].
      destruct H as (w & s' & p' & c' & -> & K & _).
      apply in_or_app. right. eapply IH2; eauto.
  - simpl in H. apply andb_true_iff in N. destruct N as [N1 N2].
    unfold Re.orelse in H.
    destruct (Re.m r1 k prev s cap) eqn:A.
    + eapply IH1; eauto.
    + eapply IH2; eauto.
  - simpl in H. eapply IH; eauto.
  - simpl in H. eapply IH; eauto.
Qed.

Lemma search_needs c r :
  Re.needs c r = true ->
  forall s ma prev, ~ In c s -> Re.search r ma prev s = None.
Proof.
  intros N s. induction s as [|x s IH]; intros ma prev Hs; simpl.
  - unfold Re.match_at.
    destruct (Re.m r _ prev [] None) as [[[p1 s1] c1]|] eqn:M;
      [|reflexivity].
    apply (m_needs _ _ N) in M. contradiction.
  - unfold Re.match_at.
    destruct (Re.m r _ prev (x :: s) None) as [[[p1 s1] c1]|] eqn:M.
    + apply (m_needs _ _ N) in M. contradiction.
    + rewrite IH; [reflexivity|]. intros I. apply Hs. now right.
Qed.

(** Without a backslash in the text the table pattern has no match: the
    split returns the text and an empty table region, bars or not. *)
Lemma split_without_backslash (text : str) :
  ~ In backslash text -> split_text_around_table text = (text, []).
Proof.
  intros H. unfold split_text_around_table, Re.split, Re.scan.
  replace (2 * length text + 2) with (S (2 * length text + 1)) by lia.
  cbn [Re.finditer].
  now rewrite (search_needs backslash table_regex eq_refl).
Qed.

(** ** The failure tag through the pipeline *)

Lemma str_eqb_eq a b : str_eqb a b = true <-> a = b.
Proof.
  revert b. induction a as [|x a IH]; intros [|y b]; simpl;
    try (split; (discriminate || reflexivity)).
  rewrite andb_true_iff, N.eqb_eq, IH.
  split; [intros [-> ->]; reflexivity|intros H; now inversion H].
Qed.

Lemma str_in_app_l q a b : str_in q a = true -> str_in q (a ++ b) = true.
Proof.
  intros H. destruct (str_in q (a ++ b)) eqn:E; [reflexivity|].
  apply str_in_app_false in E. destruct E. congruence.
Qed.

Lemma str_in_app_r q a b : str_in q b = true -> str_in q (a ++ b) = true.
Proof.
  intros H. destruct (str_in q (a ++ b)) eqn:E; [reflexivity|].
  apply str_in_app_false in E. destruct E. congruence.
Qed.

Lemma str_in_prefix q s : is_prefix q s = true -> str_in q s = true.
Proof.
  destruct s; simpl; intros ->; reflexivity.
Qed.

Lemma str_in_self q b : str_in q (q ++ b) = true.
Proof.
  apply str_in_prefix, is_prefix_app.
Qed.

Lemma str_in_mid q a b : str_in q (a ++ q ++ b) = true.
Proof.
  apply str_in_app_r, str_in_self.
Qed.

Lemma is_prefix_split p s : is_prefix p s = true -> s = p ++ skipn (length p) s.
Proof.
  revert s. induction p as [|c p IH]; intros s H; simpl in *; [reflexivity|].
  destruct s as [|y s]; [discriminate|].
  apply andb_true_iff in H. destruct H as [H1 H2].
  apply N.eqb_eq in H1. subst. f_equal. now apply IH.
Qed.

Section TagSurvives.

(** A tag [t0 :: t] and a token [p0 :: p] that share neither [t0] nor [p0]:
    an occurrence of one cannot begin inside an occurrence of the other. *)
Variables (t0 p0 : char) (t p : str).
Hypothesis token_lacks_t0 : Forall (fun c => c <> t0) (p0 :: p).
Hypothesis tag_lacks_p0 : Forall (fun c => c <> p0) (t0 :: t).

Lemma str_in_past_token a x :
  Forall (fun c => c <> t0) a ->
  str_in (t0 :: t) (a ++ x) = str_in (t0 :: t) x.
Proof.
  induction 1 as [|c a Hc _ IH]; [reflexivity|].
  simpl app. simpl str_in at 1. simpl is_prefix.
  destruct (N.eqb_spec t0 c) as [->|_]; [contradiction|].
  simpl. destruct (a ++ x); exact IH.
Qed.

Lemma replace_first_keeps_prefix new q s :
  Forall (fun c => c <> p0) q ->
  is_prefix q s = true ->
  is_prefix q (replace_first (p0 :: p) new s) = true.
Proof.
  intros Hq. revert s. induction Hq as [|c q Hc _ IH]; intros s H;
    [reflexivity|].
  destruct s as [|y s]; [discriminate|].
  simpl in H. apply andb_true_iff in H. destruct H as [H1 H2].
  apply N.eqb_eq in H1. subst y.
  rewrite replace_first_eq. simpl is_prefix at 1.
  destruct (N.eqb_spec p0 c) as [E|_]; [now symmetry in E|].
  simpl. now rewrite N.eqb_refl, IH.
Qed.

Lemma replace_first_keeps_tag new s :
  str_in (t0 :: t) s = true ->
  str_in (t0 :: t) (replace_first (p0 :: p) new s) = true.
Proof.
  induction s as [|c s IH]; intros H; [discriminate|].
  rewrite replace_first_eq.
  destruct (is_prefix (p0 :: p) (c :: s)) eqn:E.
  - apply str_in_app_r.
    rewrite (is_prefix_split _ _ E) in H.
    now rewrite str_in_past_token in H.
  - destruct (is_prefix (t0 :: t) (c :: s)) eqn:T.
    + apply replace_first_keeps_prefix with (new := new) in T;
        [|exact tag_lacks_p0].
      rewrite replace_first_eq, E in T.
      now apply str_in_prefix.
    + assert (S : str_in (t0 :: t) s = true).
      { simpl str_in in H. simpl is_prefix in T. rewrite T in H.
        exact H. }
      apply IH in S. simpl str_in. rewrite S. apply orb_true_r.
Qed.

End TagSurvives.

Lemma restore_keeps_tag blocks s :
  str_in failure_tag s = true ->
  str_in failure_tag (restore_code_blocks blocks s) = true.
Proof.
  unfold restore_code_blocks. revert s.
  induction blocks as [|code blocks IH]; intros s H; [exact H|].
  simpl. apply IH.
  apply (replace_first_keeps_tag (t0 := 91%N) (p0 := 95%N)
           (t := tl failure_tag) (p := tl placeholder)); [| |exact H].
  - unfold placeholder. simpl.
    repeat (constructor; [discriminate|]). constructor.
  - unfold failure_tag. simpl.
    repeat (constructor; [discriminate|]). constructor.
Qed.

Lemma fallback_has_tag text error_msg :
  str_in failure_tag (fallback text error_msg) = true.
Proof.
  unfold fallback.
  change failure_open
    with ([backslash; backslash; 110; backslash; backslash; 110]%N
          ++ failure_tag ++ [space]).
  rewrite <- !app_assoc. rewrite (app_assoc text).
  apply str_in_mid.
Qed.

(** ** The loop over the messages *)

Lemma str_eqb_neq a b : a <> b -> str_eqb a b = false.
Proof.
  intros H. destruct (str_eqb a b) eqn:E; [|reflexivity].
  now apply str_eqb_eq in E.
Qed.

Lemma commit_loop_none r tr l :
  Forall (fun y => role y <> r) l -> commit_loop r tr l = l.
Proof.
  induction 1 as [|y l Hy _ IH]; [reflexivity|].
  simpl. now rewrite (str_eqb_neq Hy), IH.
Qed.

Lemma commit_loop_first r tr a x b :
  Forall (fun y => role y <> r) a -> role x = r ->
  commit_loop r tr (a ++ x :: b)
  = a ++ (if str_in failure_tag tr then x else set_content x tr) :: b.
Proof.
  intros Ha Hx. induction Ha as [|y a Hy _ IH]; simpl.
  - assert (E : str_eqb (role x) r = true) by now apply str_eqb_eq.
    now rewrite E.
  - now rewrite (str_eqb_neq Hy), IH.
Qed.

Lemma commit_loop_tagged r tr l :
  str_in failure_tag tr = true -> commit_loop r tr l = l.
Proof.
  intros H. induction l as [|x l IH]; [reflexivity|].
  simpl. rewrite H, IH. now destruct (str_eqb (role x) r).
Qed.

(** The last message of a role, if there is one, splits the list. *)
Lemma first_message_split r (l : list message) :
  (Forall (fun y => role y <> r) (rev l) /\
   option_map content (find (fun x => str_eqb (role x) r) l) = None) \/
  (exists l1 x l2,
      rev l = l1 ++ x :: l2 /\ role x = r /\
      Forall (fun y => role y <> r) l2 /\
      option_map content (find (fun x => str_eqb (role x) r) l)
      = Some (content x)).
Proof.
  induction l as [|y l IH]; simpl.
  - left. split; [constructor|reflexivity].
  - destruct (str_eqb (role y) r) eqn:E.
    + right. exists (rev l), y, [].
      apply str_eqb_eq in E. repeat split; auto.
    + assert (Hy : role y <> r).
      { intros Hy. apply str_eqb_eq in Hy. congruence. }
      destruct IH as [[F N]|(l1 & x & l2 & Hl & Hx & F & S)].
      * left. split; [|exact N].
        apply Forall_app. split; [exact F|]. now constructor.
      * right. exists l1, x, (l2 ++ [y]).
        rewrite Hl, <- app_assoc. repeat split; auto.
        apply Forall_app. split; [exact F|]. now constructor.
Qed.

Lemma last_message_split r (messages : list message) :
  (Forall (fun y => role y <> r) messages /\
   get_last_message r messages = None) \/
  (exists l1 x l2,
      messages = l1 ++ x :: l2 /\ role x = r /\
      Forall (fun y => role y <> r) l2 /\
      get_last_message r messages = Some (content x)).
Proof.
  unfold get_last_message.
  pose proof (first_message_split r (rev messages)) as H.
  now rewrite rev_involutive in H.
Qed.

Lemma commit_last r tr l1 x l2 :
  role x = r -> Forall (fun y => role y <> r) l2 ->
  rev (commit_loop r tr (rev (l1 ++ x :: l2)))
  = l1 ++ (if str_in failure_tag tr then x else set_content x tr) :: l2.
Proof.
  intros Hx F.
  rewrite rev_app_distr. simpl rev. rewrite <- app_assoc. simpl app.
  rewrite commit_loop_first; [|now apply Forall_rev|exact Hx].
  rewrite rev_app_distr. simpl rev. rewrite !rev_involutive.
  now rewrite <- app_assoc.
Qed.

(** ** The hooks *)

Section Hook.

Variable r : str.
Variables source target : valves -> str.
Variable net : network.
Variable self : filter.
Variable messages : list message.

Let v := the_valves self.
Let h := hook r source target net self messages.

Lemma hook_without_message :
  get_last_message r messages = None ->
  messages_after h = messages /\ ended h <> Returned.
Proof.
  intros H. unfold h, hook. rewrite H. simpl. split; [reflexivity|discriminate].
Qed.

Lemma hook_same_language :
  source v = target v -> messages_after h = messages.
Proof.
  intros H. unfold h, hook.
  destruct (get_last_message r messages) as [last|]; [|reflexivity].
  fold v. rewrite H.
  assert (E : str_eqb (target v) (target v) = true) by now apply str_eqb_eq.
  rewrite E. reflexivity.
Qed.

Lemma hook_translating last :
  source v <> target v ->
  get_last_message r messages = Some last ->
  h = match translated_message net v (source v) (target v)
              (mask_code_blocks last) (find_code_blocks last) with
      | inr translated =>
        {| self_after := {| the_valves := v;
                            code_blocks := find_code_blocks last |};
           messages_after := rev (commit_loop r translated (rev messages));
           ended := Returned |}
      | inl e =>
        {| self_after := {| the_valves := v;
                            code_blocks := find_code_blocks last |};
           messages_after := messages; ended := Raised e |}
      end.
Proof.
  intros Hne Hlast. unfold h, hook. rewrite Hlast. fold v.
  now rewrite (str_eqb_neq Hne).
Qed.

(** A hook changes at most the content of the last message of its role. *)
Lemma hook_touches_last_only :
  messages_after h = messages \/
  exists l1 x l2 c,
    messages = l1 ++ x :: l2 /\ role x = r /\
    Forall (fun y => role y <> r) l2 /\
    messages_after h = l1 ++ set_content x c :: l2.
Proof.
  destruct (last_message_split r messages)
    as [[F N]|(l1 & x & l2 & Hl & Hx & F & S)].
  - left. now apply hook_without_message.
  - destruct (list_eq_dec N.eq_dec (source v) (target v)) as [E|E].
    + left. now apply hook_same_language.
    + rewrite (hook_translating E S).
      destruct (translated_message _ _ _ _ _ _) as [e|tr]; [now left|].
      simpl.
      pose proof (@commit_last r tr l1 x l2 Hx F) as K.
      rewrite <- Hl in K. rewrite K.
      destruct (str_in failure_tag tr); [left; now rewrite Hl|].
      right. exists l1, x, l2, tr. auto.
Qed.

(** The text a hook tests for the tag, from what the client returned. *)
Lemma translated_message_of_string last tr :
  translate net (api_url v)
            (fst (split_text_around_table (mask_code_blocks last)))
            (source v) (target v) = JStr tr ->
  translated_message net v (source v) (target v)
                     (mask_code_blocks last) (find_code_blocks last)
  = inr (restore_code_blocks (find_code_blocks last)
           (tr ++ snd (split_text_around_table (mask_code_blocks last)))).
Proof.
  intros H. unfold translated_message.
  destruct (split_text_around_table (mask_code_blocks last))
    as [before table]. simpl in H. rewrite H.
  now rewrite clean_table_delimiters_id.
Qed.

(** A tag in what the client returned blocks the commit. *)
Lemma hook_keeps_on_tag last tr :
  source v <> target v ->
  get_last_message r messages = Some last ->
  translate net (api_url v)
            (fst (split_text_around_table (mask_code_blocks last)))
            (source v) (target v) = JStr tr ->
  str_in failure_tag tr = true ->
  messages_after h = messages /\ ended h = Returned.
Proof.
  intros Hne Hlast Htr Htag.
  rewrite (hook_translating Hne Hlast).
  rewrite (translated_message_of_string _ Htr). simpl.
  rewrite commit_loop_tagged, rev_involutive; [auto|].
  apply restore_keeps_tag. now apply str_in_app_l.
Qed.

(** What a hook does with the text it tests. *)
Lemma hook_commits_or_keeps last tr :
  source v <> target v ->
  get_last_message r messages = Some last ->
  translated_message net v (source v) (target v)
                     (mask_code_blocks last) (find_code_blocks last)
  = inr tr ->
  ended h = Returned /\
  (str_in failure_tag tr = true -> messages_after h = messages) /\
  (str_in failure_tag tr = false ->
   exists l1 x l2,
     messages = l1 ++ x :: l2 /\ role x = r /\
     Forall (fun y => role y <> r) l2 /\ content x = last /\
     messages_after h = l1 ++ set_content x tr :: l2).
Proof.
  intros Hne Hlast Htr.
  rewrite (hook_translating Hne Hlast), Htr. simpl.
  split; [reflexivity|]. split.
  - intros T. now rewrite commit_loop_tagged, rev_involutive.
  - intros T.
    destruct (last_message_split r messages)
      as [[F N]|(l1 & x & l2 & Hl & Hx & F & S)]; [congruence|].
    exists l1, x, l2. repeat split; auto; [congruence|].
    pose proof (@commit_last r tr l1 x l2 Hx F) as K.
    rewrite <- Hl in K. rewrite K. now rewrite T.
Qed.

End Hook.

(** ** The translation client *)

Lemma find_data_absent (fields : list (str * json)) :
  Forall (fun kv => fst kv <> data_key) fields ->
  find (fun kv => str_eqb (fst kv) data_key) fields = None.
Proof.
  induction 1 as [|kv fields H _ IH]; [reflexivity|].
  simpl. now rewrite (str_eqb_neq H).
Qed.

Lemma raise_for_status_error resp :
  error_status (status_code resp) ->
  raise_for_status resp
  = Some {| cls := RequestException; descr := status_error resp |}.
Proof.
  intros [L U]. unfold raise_for_status.
  apply Z.leb_le in L. apply Z.ltb_lt in U. now rewrite L, U.
Qed.

Lemma raise_for_status_ok resp :
  ~ error_status (status_code resp) -> raise_for_status resp = None.
Proof.
  intros H. unfold raise_for_status.
  destruct (400 <=? status_code resp)%Z eqn:L; [|reflexivity].
  destruct (status_code resp <? 600)%Z eqn:U; [|reflexivity].
  exfalso. apply H. split; [now apply Z.leb_le|now apply Z.ltb_lt].
Qed.

Lemma call_fails_try_body net req e :
  call_fails net req e -> try_body net req = inl e.
Proof.
  unfold try_body.
  intros [e' H|resp H S|resp e' H S B|resp fields H S B F|resp doc H S B D];
    rewrite H.
  - reflexivity.
  - now rewrite (@raise_for_status_error resp S).
  - now rewrite (@raise_for_status_ok resp S), B.
  - rewrite (@raise_for_status_ok resp S), B. unfold subscript_data.
    now rewrite (find_data_absent F).
  - rewrite (@raise_for_status_ok resp S), B.
    destruct doc as [|b|n|t|l|fields];
      [unfold subscript_data, subscript_error; reflexivity..|].
    now destruct (D fields).
Qed.

Lemma translate_of_failure net url text source target e :
  try_body net {| req_url := url; req_text := text;
                  req_source := source; req_target := target |} = inl e ->
  translate net url text source target = JStr (fallback text (error_msg e)).
Proof.
  intros H. unfold translate, error_msg. rewrite H.
  now destruct (is_request_exception e).
Qed.

(** * The claims *)

(** ** Claims on the code-block protector *)

(** C1, as stated, fails: the text [__CODE_BLOCK```x```] does not contain
    the placeholder token, yet after masking the stem and the first two
    characters of the inserted token form an earlier occurrence, which the
    restore loop replaces: the result is [```x```CODE_BLOCK__]. *)
Lemma restore_extract_collision :
  str_in placeholder stem_before_fence = false /\
  restore_code_blocks (find_code_blocks stem_before_fence)
                      (mask_code_blocks stem_before_fence)
  = u "```x```CODE_BLOCK__" /\
  restore_code_blocks (find_code_blocks stem_before_fence)
                      (mask_code_blocks stem_before_fence)
  <> stem_before_fence.
Proof.
  split; [reflexivity|]. split; [reflexivity|].
  vm_compute. discriminate.
Qed.

(** C1 (amended).  For every text that does not contain the placeholder stem
    [__CODE_BLOCK] (hence not the placeholder either, and no part of it that
    an inserted placeholder could complete), masking the fenced regions and
    then restoring the stash, one placeholder at a time from the left, gives
    the text back. *)
Theorem restore_extract_roundtrip (text : str) :
  str_in placeholder_stem text = false ->
  restore_code_blocks (find_code_blocks text) (mask_code_blocks text) = text.
Proof.
  intros H.
  destruct (extract_shape text) as (l & tl & E & F & Hs & Hm).
  rewrite Hs, Hm.
  pose proof (restore_pieces (l := l) [] tl F) as R. simpl app in R.
  rewrite R; [now rewrite <- E|]. now rewrite <- E.
Qed.

Lemma restore_extract_roundtrip_witness :
  str_in placeholder_stem hello_message = false /\
  restore_code_blocks (find_code_blocks hello_message)
                      (mask_code_blocks hello_message) = hello_message.
Proof.
  split; [reflexivity|].
  apply (restore_extract_roundtrip hello_message). reflexivity.
Defined.

(** C8, as stated, fails: a text without fences that is the placeholder
    token has one placeholder after masking and an empty stash. *)
Lemma placeholder_count_collision :
  str_count placeholder (mask_code_blocks placeholder) = 1 /\
  length (find_code_blocks placeholder) = 0.
Proof. split; reflexivity. Qed.

(** C8 (amended).  For every text that does not contain the placeholder stem
    [__CODE_BLOCK], the number of placeholders in the masked text, counted
    as [str.count] does, is the length of the stash. *)
Theorem placeholder_count_is_stash_length (text : str) :
  str_in placeholder_stem text = false ->
  str_count placeholder (mask_code_blocks text)
  = length (find_code_blocks text).
Proof.
  intros H.
  destruct (extract_shape text) as (l & tl & E & F & Hs & Hm).
  rewrite Hs, Hm. unfold stash_of. rewrite length_map.
  apply count_pieces. now rewrite <- E.
Qed.

Lemma placeholder_count_is_stash_length_witness :
  str_in placeholder_stem hello_message = false /\
  str_count placeholder (mask_code_blocks hello_message)
  = length (find_code_blocks hello_message).
Proof.
  split; [reflexivity|].
  apply (placeholder_count_is_stash_length hello_message). reflexivity.
Defined.

(** ** Claims on the translation client *)

(** C2, as stated, fails for a malformed response: a document whose data
    entry is null raises nothing in [translate], which returns the entry,
    not the text with an annotation. *)
Lemma translate_hands_back_null_data :
  null_service {| req_url := api_url default_valves; req_text := u "你好";
                  req_source := u "auto"; req_target := u "en" |}
  = PostReturns {| status_code := 200; status_error := [];
                   body_json := inr (JObj [(data_key, JNull)]) |} /\
  translate null_service (api_url default_valves) (u "你好")
            (u "auto") (u "en") = JNull /\
  forall e,
    translate null_service (api_url default_valves) (u "你好")
              (u "auto") (u "en")
    <> JStr (u "你好" ++ failure_annotation e).
Proof.
  split; [reflexivity|]. split; [reflexivity|].
  intros e. vm_compute. discriminate.
Qed.

(** C2 (amended).  Whenever the post raises, the status is between 400 and
    599, the body is not JSON, or the document is no object with the key
    data, [translate] returns a string: the input text followed by the
    annotation, which holds the literal tag and the description of the
    error. *)
Theorem translate_failure_returns_annotated_text
        (net : network) (url text source target : str) (e : exn) :
  call_fails net {| req_url := url; req_text := text;
                    req_source := source; req_target := target |} e ->
  translate net url text source target
  = JStr (text ++ failure_annotation e) /\
  str_in failure_tag (failure_annotation e) = true /\
  str_in (descr e) (failure_annotation e) = true.
Proof.
  intros H. apply call_fails_try_body in H.
  rewrite (translate_of_failure _ _ _ _ _ H).
  split; [reflexivity|]. split.
  - unfold failure_annotation. apply str_in_mid.
  - unfold failure_annotation, error_msg.
    rewrite <- !app_assoc.
    do 4 apply str_in_app_r. apply str_in_self.
Qed.

Lemma translate_failure_returns_annotated_text_witness :
  translate unreachable (api_url default_valves) (u "你好")
            (u "auto") (u "en")
  = JStr (u "你好\\n\\n[翻译失败: 翻译API错误: connection refused]") /\
  translate unavailable_service (api_url default_valves) (u "你好")
            (u "auto") (u "en")
  = JStr (u "你好\\n\\n[翻译失败: 翻译API错误: 503 Server Error]") /\
  translate html_service (api_url default_valves) (u "你好")
            (u "auto") (u "en")
  = JStr (u "你好\\n\\n[翻译失败: 翻译API错误: Expecting value]") /\
  translate quota_service (api_url default_valves) (u "你好")
            (u "auto") (u "en")
  = JStr (u "你好\\n\\n[翻译失败: 翻译过程中发生意外错误: 'data']") /\
  translate list_service (api_url default_valves) (u "你好")
            (u "auto") (u "en")
  = JStr (u "你好\\n\\n[翻译失败: 翻译过程中发生意外错误: list indices must be integers or slices, not str]").
Proof.
  split; [|split; [|split; [|split]]].
  - refine (eq_trans
              (proj1 (@translate_failure_returns_annotated_text
                        unreachable (api_url default_valves) (u "你好")
                        (u "auto") (u "en") connection_refused _)) _);
      [|reflexivity].
    apply network_failure. reflexivity.
  - refine (eq_trans
              (proj1 (@translate_failure_returns_annotated_text
                        unavailable_service (api_url default_valves)
                        (u "你好") (u "auto") (u "en") _ _)) _).
    + eapply http_error_status; [reflexivity|].
      unfold error_status. simpl. lia.
    + reflexivity.
  - refine (eq_trans
              (proj1 (@translate_failure_returns_annotated_text
                        html_service (api_url default_valves)
                        (u "你好") (u "auto") (u "en") _ _)) _).
    + eapply unparsable_response; [reflexivity| |reflexivity].
      unfold error_status. simpl. lia.
    + reflexivity.
  - refine (eq_trans
              (proj1 (@translate_failure_returns_annotated_text
                        quota_service (api_url default_valves)
                        (u "你好") (u "auto") (u "en") _ _)) _).
    + eapply missing_data_key; [reflexivity| |reflexivity|].
      * unfold error_status. simpl. lia.
      * repeat constructor; discriminate.
    + reflexivity.
  - refine (eq_trans
              (proj1 (@translate_failure_returns_annotated_text
                        list_service (api_url default_valves)
                        (u "你好") (u "auto") (u "en") _ _)) _).
    + eapply document_is_no_object; [reflexivity| |reflexivity|].
      * unfold error_status. simpl. lia.
      * discriminate.
    + reflexivity.
Defined.

(** ** Claims on the table splitter and the delimiter normalizer *)




(** C7 fails on the code: a text without a bar but with a backslash is cut
    at the backslash, and the text after it is dropped. *)
Theorem split_cuts_at_backslash :
  str_in [124%N] windows_path = false /\
  split_text_around_table windows_path = ([], u "C:\").
Proof. split; reflexivity. Qed.

(** C9 fails on the code: the blanks around the dashes of a separator line
    stay as they are. *)
Theorem clean_keeps_spaced_separator :
  str_in [space; 45%N] spaced_separator = true /\
  clean_table_delimiters spaced_separator = spaced_separator.
Proof.
  split; [reflexivity|]. apply clean_table_delimiters_id.
Qed.

(** ** Claims on the hooks *)

Lemma hook_commits_unless_tagged r source target :
  commits_unless_tagged r source target (hook r source target).
Proof.
  intros net self messages last Hne Hlast v. split.
  - intros e He. unfold client_request in He.
    apply translate_of_failure in He.
    exists (fallback (fst (split_text_around_table (mask_code_blocks last)))
                     (error_msg e)).
    split; [exact He|]. split; [apply fallback_has_tag|].
    eapply hook_keeps_on_tag; eauto. apply fallback_has_tag.
  - intros tr Htr. now apply hook_commits_or_keeps.
Qed.

(** C3, as stated, fails in its last part: the client succeeds and its
    result carries no tag, but the code block put back into it does, and the
    hook keeps the old content instead of committing the translation. *)
Lemma hook_keeps_on_tag_in_code_block :
  translate answering_masked (api_url default_valves)
            (u "这是什么意思？__CODE_BLOCK__") (u "auto") (u "en")
  = JStr masked_answer /\
  str_in failure_tag masked_answer = false /\
  ended (inlet answering_masked fresh_filter error_question) = Returned /\
  messages_after (inlet answering_masked fresh_filter error_question)
  = error_question.
Proof. repeat split; reflexivity. Qed.

(** C3 (amended).  For both hooks, with different languages for the
    direction and a located message: when the client fails, its result
    carries the tag, the messages stay as they were and the hook returns; a
    tested text with the tag is never written; a tested text without the
    tag becomes the content of the located message.  The tested text is the
    result of the client with the table region put back and the code blocks
    restored. *)
Theorem hooks_commit_unless_tagged :
  commits_unless_tagged user_role source_user target_user inlet /\
  commits_unless_tagged assistant_role source_assistant target_assistant
                        outlet.
Proof.
  split; apply hook_commits_unless_tagged.
Qed.

Lemma default_user_languages_differ :
  source_user (the_valves fresh_filter) <> target_user (the_valves fresh_filter).
Proof. discriminate. Qed.

Lemma hooks_commit_unless_tagged_witness :
  (exists fb,
      translate unreachable (api_url default_valves) (u "你好 __CODE_BLOCK__")
                (u "auto") (u "en") = JStr fb /\
      str_in failure_tag fb = true /\
      messages_after (inlet unreachable fresh_filter chat) = chat /\
      ended (inlet unreachable fresh_filter chat) = Returned) /\
  (exists l1 x l2,
      chat = l1 ++ x :: l2 /\ role x = user_role /\
      Forall (fun y => role y <> user_role) l2 /\
      content x = u "你好 ```print(1)```" /\
      messages_after (inlet greeting_service fresh_filter chat)
      = l1 ++ set_content x (u "Hello ```print(1)```") :: l2).
Proof.
  destruct hooks_commit_unless_tagged as [Hin _].
  split.
  - destruct (Hin unreachable fresh_filter chat (u "你好 ```print(1)```")
                  default_user_languages_differ eq_refl) as [Hfail _].
    exact (Hfail connection_refused eq_refl).
  - destruct (Hin greeting_service fresh_filter chat (u "你好 ```print(1)```")
                  default_user_languages_differ eq_refl) as [_ Hok].
    destruct (Hok (u "Hello ```print(1)```") eq_refl) as (_ & _ & Hcommit).
    exact (Hcommit eq_refl).
Defined.

(** C5, as stated, fails: an exception escapes the hook when the list has no
    message of the role (the lookup gives None and the pattern search raises
    on it), and when the service answers with a data entry that is not a
    string (the concatenation with the table text raises). *)
Lemma hook_raises :
  ended (inlet unreachable fresh_filter []) <> Returned /\
  ended (outlet unreachable fresh_filter
                [ {| role := user_role; content := windows_path |} ])
  <> Returned /\
  ended (inlet null_service fresh_filter chat) <> Returned.
Proof.
  repeat split; vm_compute; discriminate.
Qed.

Lemma hook_touches_last r source target :
  touches_last_only r (hook r source target).
Proof.
  intros net self messages. split; [|apply hook_touches_last_only].
  intros F.
  destruct (last_message_split r messages)
    as [[_ N]|(l1 & x & l2 & Hl & Hx & _)].
  - now apply hook_without_message.
  - exfalso. rewrite Hl in F. apply Forall_app in F. destruct F as [_ F].
    now apply Forall_inv in F.
Qed.

(** C5 (amended).  For every message list, each hook changes at most the
    content of the last message of its role, the first one met from the end,
    and no other message; when the list has no message of that role, no
    message is changed. *)
Theorem hooks_touch_last_message_only :
  touches_last_only user_role inlet /\
  touches_last_only assistant_role outlet.
Proof.
  split; apply hook_touches_last.
Qed.

Lemma hooks_touch_last_message_only_witness :
  messages_after (inlet unreachable fresh_filter
                        [ {| role := assistant_role; content := hello_message |} ])
  = [ {| role := assistant_role; content := hello_message |} ].
Proof.
  destruct hooks_touch_last_message_only as [Hin _].
  apply (proj1 (Hin unreachable fresh_filter
                    [ {| role := assistant_role; content := hello_message |} ])).
  constructor; [discriminate|constructor].
Defined.

(** C6.  When the source language of a direction equals its target language,
    the hook of that direction leaves the message list as it was. *)
Theorem hooks_noop_on_same_language :
  noop_on_same_language source_user target_user inlet /\
  noop_on_same_language source_assistant target_assistant outlet.
Proof.
  split; intros net self messages H; now apply hook_same_language.
Qed.

Lemma hooks_noop_on_same_language_witness :
  messages_after (inlet greeting_service english_only chat) = chat /\
  messages_after (outlet greeting_service english_only chat) = chat.
Proof.
  destruct hooks_noop_on_same_language as [Hin Hout].
  split.
  - exact (Hin greeting_service english_only chat eq_refl).
  - exact (Hout greeting_service english_only chat eq_refl).
Defined.

Lemma hook_tag_blocks_genuine_translation r source target :
  tag_blocks_genuine_translation r source target (hook r source target).
Proof.
  intros net self messages last d Hne Hlast Hd Htag.
  assert (T : translate net (api_url (the_valves self))
                (fst (split_text_around_table (mask_code_blocks last)))
                (source (the_valves self)) (target (the_valves self))
              = JStr d).
  { unfold translate. unfold client_request in Hd. now rewrite Hd. }
  split; [exact T|].
  eapply hook_keeps_on_tag; eauto.
Qed.

(** C10.  The hooks detect a failure by the substring test alone: when the
    client returns the data of a well-formed answer and that text holds the
    tag, the hook keeps the old content, as it does for a failed call. *)
Theorem hooks_take_quoted_tag_for_failure :
  tag_blocks_genuine_translation user_role source_user target_user inlet /\
  tag_blocks_genuine_translation assistant_role source_assistant
                                 target_assistant outlet.
Proof.
  split; apply hook_tag_blocks_genuine_translation.
Qed.

Lemma hooks_take_quoted_tag_for_failure_witness :
  translate quoting_service (api_url default_valves)
            (u "你好 __CODE_BLOCK__") (u "auto") (u "en")
  = JStr quoting_translation /\
  messages_after (inlet quoting_service fresh_filter chat) = chat /\
  ended (inlet quoting_service fresh_filter chat) = Returned.
Proof.
  destruct hooks_take_quoted_tag_for_failure as [Hin _].
  exact (Hin quoting_service fresh_filter chat (u "你好 ```print(1)```")
             quoting_translation default_user_languages_differ
             eq_refl eq_refl eq_refl).
Defined.

(** * Further properties of the code *)

(** ** The code-block protector *)

Lemma code_regex_starts_with_fence ma prev s mt g rest p :
  Re.match_at code_regex ma prev s = Some (mt, g, rest, p) ->
  is_prefix fence_mark s = true.
Proof.
  intros H.
  destruct (code_regex_match _ _ _ H) as (code & _ & Hm).
  apply match_at_sound with (P := fun _ => True) in H;
    [|apply chars_ok_top].
  destruct H as (E & _). subst s mt. unfold fence.
  rewrite <- app_assoc. apply is_prefix_app.
Qed.

Lemma search_code_regex_none s :
  str_in fence_mark s = false ->
  forall ma prev, Re.search code_regex ma prev s = None.
Proof.
  induction s as [|x s IH]; intros H ma prev; simpl.
  - destruct (Re.match_at code_regex ma prev [])
      as [[[[mt g] rest] p]|] eqn:M; [|reflexivity].
    apply code_regex_starts_with_fence in M. discriminate.
  - apply str_in_head_false in H. destruct H as [H1 H2].
    destruct (Re.match_at code_regex ma prev (x :: s))
      as [[[[mt g] rest] p]|] eqn:M.
    + apply code_regex_starts_with_fence in M. congruence.
    + now rewrite IH.
Qed.

Lemma scan_without_match r s :
  (forall ma prev, Re.search r ma prev s = None) -> Re.scan r s = ([], s).
Proof.
  intros H. unfold Re.scan.
  replace (2 * length s + 2) with (S (2 * length s + 1)) by lia.
  cbn [Re.finditer]. now rewrite H.
Qed.

(** X1.  A text without a fence mark has no code block: the stash is empty
    and the masked text is the text. *)
Theorem no_fence_no_code_block (text : str) :
  str_in fence_mark text = false ->
  find_code_blocks text = [] /\ mask_code_blocks text = text.
Proof.
  intros H. unfold find_code_blocks, mask_code_blocks, Re.findall, Re.sub.
  rewrite (scan_without_match code_regex text (search_code_regex_none text H)).
  split; reflexivity.
Qed.

Lemma no_fence_no_code_block_witness :
  find_code_blocks (u "use `x` and ``y``") = [] /\
  mask_code_blocks (u "use `x` and ``y``") = u "use `x` and ``y``".
Proof.
  apply (no_fence_no_code_block (u "use `x` and ``y``")). reflexivity.
Defined.

Lemma replace_first_absent old new s :
  str_in old s = false -> replace_first old new s = s.
Proof.
  induction s as [|c s IH]; intros H; rewrite replace_first_eq.
  - simpl in H. rewrite orb_false_r in H. now rewrite H.
  - apply str_in_head_false in H. destruct H as [H1 H2].
    now rewrite H1, IH.
Qed.

(** X2.  When the text holds no placeholder (the translation dropped or
    altered every one), the restore loop changes nothing, whatever the stash
    holds: the code blocks are lost without notice. *)
Theorem restore_without_placeholder (blocks : list str) (text : str) :
  str_in placeholder text = false ->
  restore_code_blocks blocks text = text.
Proof.
  intros H. unfold restore_code_blocks.
  induction blocks as [|code blocks IH]; [reflexivity|].
  simpl. now rewrite replace_first_absent.
Qed.

Lemma restore_without_placeholder_witness :
  restore_code_blocks [u "print(1)"; u "print(2)"] (u "Hello __CODE BLOCK__")
  = u "Hello __CODE BLOCK__".
Proof.
  apply (restore_without_placeholder [u "print(1)"; u "print(2)"]
                                     (u "Hello __CODE BLOCK__")).
  reflexivity.
Defined.

Lemma stash_fenced_in l tl :
  Forall code_piece l ->
  Forall (fun code => str_in (fence code) (join_matched l tl) = true)
         (stash_of l).
Proof.
  induction 1 as [|x l (code & Hc & Hm) _ IH]; [constructor|].
  unfold join_matched in *. simpl. constructor.
  - rewrite Hc, Hm. simpl Re.group1. rewrite <- !app_assoc.
    apply str_in_mid.
  - eapply Forall_impl; [|exact IH].
    intros c Hin. rewrite <- !app_assoc.
    now do 2 apply str_in_app_r.
Qed.

(** X3.  Every entry of the stash is the inside of a fenced region of the
    text: wrapped in two fence marks again, it occurs in the text. *)
Theorem stash_entries_are_fenced_in_text (text : str) :
  Forall (fun code => str_in (fence code) text = true)
         (find_code_blocks text).
Proof.
  destruct (extract_shape text) as (l & tl & E & F & Hs & _).
  rewrite Hs. clear Hs. subst text. now apply stash_fenced_in.
Qed.

Lemma str_in_split q s :
  str_in q s = true -> exists a b, s = a ++ q ++ b.
Proof.
  induction s as [|c s IH]; intros H.
  - simpl in H. rewrite orb_false_r in H.
    exists [], (skipn (length q) []). now apply is_prefix_split.
  - simpl str_in in H. apply orb_true_iff in H. destruct H as [H|H].
    + exists [], (skipn (length q) (c :: s)). now apply is_prefix_split.
    + destruct (IH H) as (a & b & ->). now exists (c :: a), b.
Qed.

(** The lazy [.*?] under [re.DOTALL] stops at the first position where the
    rest of the pattern succeeds: at every earlier position it failed. *)
Lemma lazy_any_minimal n :
  forall (k : Re.cont) prev s cap res,
    Re.repeat_loop (Re.m (Re.Dot true)) false k n prev s cap = Some res ->
    exists w s' p',
      s = w ++ s' /\ k p' s' cap = Some res /\
      (forall w1 w2, w = w1 ++ w2 -> w2 <> [] ->
                     exists p1, k p1 (w2 ++ s') cap = None).
Proof.
  induction n as [|n IH]; intros k prev s cap res H; simpl in H.
  - exists [], s, prev. repeat split; auto.
    intros w1 w2 E Hne. symmetry in E. apply app_eq_nil in E.
    destruct E. contradiction.
  - unfold Re.orelse in H. destruct (k prev s cap) as [x|] eqn:K0.
    + inversion H; subst x. exists [], s, prev. repeat split; auto.
      intros w1 w2 E Hne. symmetry in E. apply app_eq_nil in E.
      destruct E. contradiction.
    + destruct s as [|x s1]; [discriminate|]. simpl in H.
      destruct (Nat.ltb_spec (length s1) (S (length s1))); [|lia].
      apply IH in H. destruct H as (w & s' & p' & E & K & Hmin).
      exists (x :: w), s', p'. repeat split; [now rewrite E|exact K|].
      intros w1 w2 Ew Hne. destruct w1 as [|y w1]; simpl in Ew.
      * exists prev. subst w2. simpl. now rewrite <- E.
      * inversion Ew; subst. now apply (Hmin w1 w2).
Qed.

(** The block captured by [code_regex] holds no fence mark. *)
Lemma code_regex_capture_has_no_fence ma prev s mt g rest p :
  Re.match_at code_regex ma prev s = Some (mt, g, rest, p) ->
  exists code, g = Some code /\ str_in fence_mark code = false.
Proof.
  intros H. unfold Re.match_at in H.
  destruct (Re.m code_regex _ prev s None) as [[[p1 s1] c1]|] eqn:M;
    [|discriminate].
  injection H as _ Hg Hrest Hp. subst p1 s1 c1.
  unfold code_regex in M.
  change (Re.m (Re.Seq ?a ?b) ?k) with (Re.m a (Re.m b k)) in M.
  apply m_lit_inv in M. destruct M as (s1 & E1 & M).
  change (Re.m (Re.Seq ?a ?b) ?k) with (Re.m a (Re.m b k)) in M.
  apply m_lit_inv in M. destruct M as (s2 & E2 & M).
  change (Re.m (Re.Seq ?a ?b) ?k) with (Re.m a (Re.m b k)) in M.
  apply m_lit_inv in M. destruct M as (s3 & E3 & M).
  change (Re.m (Re.Seq ?a ?b) ?k) with (Re.m a (Re.m b k)) in M.
  simpl Re.m in M.
  apply lazy_any_minimal in M.
  destruct M as (w & s4 & p4 & E4 & M & Hmin).
  assert (W : firstn (length s3 - length s4) s3 = w).
  { rewrite E4, length_app.
    replace (length w + length s4 - length s4) with (length w) by lia.
    rewrite firstn_app, firstn_all, Nat.sub_diag. simpl.
    apply app_nil_r. }
  rewrite W in M.
  destruct s4 as [|y1 [|y2 [|y3 s7]]]; simpl in M; try discriminate;
    try (destruct (y1 =? backtick)%N; discriminate);
    try (destruct (y1 =? backtick)%N; [|discriminate];
         destruct (y2 =? backtick)%N; discriminate).
  destruct (y1 =? backtick)%N; [|discriminate].
  destruct (y2 =? backtick)%N; [|discriminate].
  destruct (y3 =? backtick)%N; [|discriminate].
  destruct (ma && (length s7 =? length s)); [discriminate|].
  injection M as _ _ Hg. exists w. split; [now symmetry|].
  destruct (str_in fence_mark w) eqn:F; [exfalso|reflexivity].
  apply str_in_split in F. destruct F as (a & b & Ew).
  destruct (Hmin a (fence_mark ++ b) Ew) as (p1 & K); [discriminate|].
  unfold fence_mark in K. simpl in K.
  assert (L : (length (b ++ y1 :: y2 :: y3 :: s7) =? length s) = false).
  { apply Nat.eqb_neq.
    assert (Ls : length s = 3 + (length w + (3 + length s7))).
    { rewrite E1, E2, E3, E4. simpl. rewrite length_app. simpl. lia. }
    assert (Lw : length w = length a + (3 + length b)).
    { rewrite Ew, !length_app. simpl. lia. }
    rewrite length_app. simpl. lia. }
  rewrite L, andb_false_r in K. discriminate.
Qed.

(** X4.  No entry of the stash holds a fence mark: a block ends at the
    first fence mark that follows its opening one. *)
Theorem stash_entries_hold_no_fence (text : str) :
  Forall (fun code => str_in fence_mark code = false)
         (find_code_blocks text).
Proof.
  unfold find_code_blocks, Re.findall.
  destruct (Re.scan code_regex text) as [l tl] eqn:S. unfold Re.scan in S.
  apply finditer_sound
    with (P := fun _ => True)
         (Phi := fun _ g =>
                   exists code, g = Some code /\
                                str_in fence_mark code = false) in S.
  - destruct S as [_ F]. simpl fst. apply Forall_map.
    eapply Forall_impl; [|exact F].
    intros x (_ & _ & code & Hc & Hf).
    change (captured x) with (snd x) in Hc. now rewrite Hc.
  - apply chars_ok_top.
  - intros ma prev s mt g rest p M.
    eapply code_regex_capture_has_no_fence; exact M.
Qed.

(** ** The translation client *)

Lemma find_data_present (pre post : list (str * json)) (v : json) :
  Forall (fun kv => fst kv <> data_key) pre ->
  find (fun kv => str_eqb (fst kv) data_key) (pre ++ (data_key, v) :: post)
  = Some (data_key, v).
Proof.
  induction 1 as [|kv pre H _ IH]; simpl.
  - reflexivity.
  - now rewrite (str_eqb_neq H).
Qed.

(** X5.  With a status that is no error and a document that has one entry
    under data, [translate] returns that entry as it is, string or not:
    nothing is checked on the way. *)
Theorem translate_returns_data_entry
        (net : network) (url text source target : str) (resp : response)
        (pre post : list (str * json)) (v : json) :
  net {| req_url := url; req_text := text;
         req_source := source; req_target := target |} = PostReturns resp ->
  ~ (400 <= status_code resp < 600)%Z ->
  body_json resp = inr (JObj (pre ++ (data_key, v) :: post)) ->
  Forall (fun kv => fst kv <> data_key) pre ->
  Forall (fun kv => fst kv <> data_key) post ->
  translate net url text source target = v.
Proof.
  intros N S B F _.
  unfold translate, try_body.
  rewrite N, (@raise_for_status_ok resp S), B.
  unfold subscript_data. now rewrite (find_data_present post v F).
Qed.

Lemma translate_returns_data_entry_witness :
  translate (answering (JObj [(u "code", JNum 200); (u "data", JNum 5);
                              (u "id", JNum 7)]))
            (api_url default_valves) (u "你好") (u "auto") (u "en")
  = JNum 5.
Proof.
  apply (@translate_returns_data_entry
           (answering (JObj [(u "code", JNum 200); (u "data", JNum 5);
                             (u "id", JNum 7)]))
           (api_url default_valves) (u "你好") (u "auto") (u "en")
           {| status_code := 200; status_error := [];
              body_json := inr (JObj [(u "code", JNum 200);
                                      (u "data", JNum 5);
                                      (u "id", JNum 7)]) |}
           [(u "code", JNum 200)] [(u "id", JNum 7)] (JNum 5)).
  - reflexivity.
  - simpl. lia.
  - reflexivity.
  - repeat constructor; discriminate.
  - repeat constructor; discriminate.
Defined.

(** X6.  An error status decides before the body is read: whatever the
    body holds, even a data entry, the result is the fallback with the
    text of the status error. *)
Theorem error_status_hides_body
        (net : network) (url text source target : str) (resp : response) :
  net {| req_url := url; req_text := text;
         req_source := source; req_target := target |} = PostReturns resp ->
  (400 <= status_code resp < 600)%Z ->
  translate net url text source target
  = JStr (text ++ failure_open ++ api_error_label ++ status_error resp
               ++ failure_close).
Proof.
  intros N [L U].
  assert (S : raise_for_status resp
              = Some {| cls := RequestException;
                        descr := status_error resp |}).
  { unfold raise_for_status.
    apply Z.leb_le in L. apply Z.ltb_lt in U. now rewrite L, U. }
  unfold translate, try_body. rewrite N, S.
  unfold is_request_exception. cbn [cls descr].
  unfold fallback. reflexivity.
Qed.

Lemma error_status_hides_body_witness :
  translate (fun _ => PostReturns
                        {| status_code := 503;
                           status_error := u "503 Server Error";
                           body_json := inr (JObj [(u "data", JStr (u "Hello"))]) |})
            (api_url default_valves) (u "你好") (u "auto") (u "en")
  = JStr (u "你好" ++ failure_open ++ api_error_label ++ u "503 Server Error"
               ++ failure_close).
Proof.
  apply (@error_status_hides_body
           (fun _ => PostReturns
                       {| status_code := 503;
                          status_error := u "503 Server Error";
                          body_json := inr (JObj [(u "data", JStr (u "Hello"))]) |})
           (api_url default_valves) (u "你好") (u "auto") (u "en")
           {| status_code := 503;
              status_error := u "503 Server Error";
              body_json := inr (JObj [(u "data", JStr (u "Hello"))]) |}).
  - reflexivity.
  - simpl. lia.
Defined.

(** X7.  A parsed answer that is an object without a data key gives the
    fallback of the second handler, with the quoted key as description. *)
Theorem missing_data_key_gives_fallback
        (net : network) (url text source target : str) (resp : response)
        (fields : list (str * json)) :
  net {| req_url := url; req_text := text;
         req_source := source; req_target := target |} = PostReturns resp ->
  raise_for_status resp = None ->
  body_json resp = inr (JObj fields) ->
  Forall (fun kv => fst kv <> data_key) fields ->
  translate net url text source target
  = JStr (text ++ failure_open ++ unexpected_label ++ u "'data'"
               ++ failure_close).
Proof.
  intros N S B F.
  unfold translate, try_body. rewrite N, S, B.
  unfold subscript_data. rewrite (find_data_absent F).
  unfold is_request_exception. cbn [cls descr].
  unfold fallback. reflexivity.
Qed.

Lemma missing_data_key_gives_fallback_witness :
  translate (answering (JObj [(u "code", JNum 429);
                              (u "message", JStr (u "too many requests"))]))
            (api_url default_valves) (u "你好") (u "auto") (u "en")
  = JStr (u "你好" ++ failure_open ++ unexpected_label ++ u "'data'"
               ++ failure_close).
Proof.
  apply (@missing_data_key_gives_fallback
           (answering (JObj [(u "code", JNum 429);
                             (u "message", JStr (u "too many requests"))]))
           (api_url default_valves) (u "你好") (u "auto") (u "en")
           {| status_code := 200; status_error := [];
              body_json := inr (JObj [(u "code", JNum 429);
                                      (u "message",
                                       JStr (u "too many requests"))]) |}
           [(u "code", JNum 429);
            (u "message", JStr (u "too many requests"))]).
  - reflexivity.
  - reflexivity.
  - reflexivity.
  - repeat constructor; discriminate.
Defined.

(** ** The table splitter and the delimiter normalizer *)

(** X8.  A text without a backslash is not split, bars or not: the prefix
    is the text and the table region is empty. *)
Theorem split_keeps_text_without_backslash (text : str) :
  ~ In backslash text -> split_text_around_table text = (text, []).
Proof.
  apply split_without_backslash.
Qed.

Lemma split_keeps_text_without_backslash_witness :
  split_text_around_table markdown_table = (markdown_table, []).
Proof.
  apply (split_keeps_text_without_backslash markdown_table).
  vm_compute. intuition discriminate.
Defined.

(** X9.  [clean_table_delimiters] returns every text as it is: no match of
    its pattern holds a blank for the replacement to act on. *)
Theorem clean_table_delimiters_changes_nothing (text : str) :
  clean_table_delimiters text = text.
Proof.
  apply clean_table_delimiters_id.
Qed.

(** ** The hooks *)

Lemma no_message_of_role r (messages : list message) :
  Forall (fun y => role y <> r) messages ->
  get_last_message r messages = None.
Proof.
  intros F.
  destruct (last_message_split r messages)
    as [[_ N]|(l1 & x & l2 & Hl & Hx & _)]; [exact N|].
  exfalso. rewrite Hl in F. apply Forall_app in F. destruct F as [_ F].
  now apply Forall_inv in F.
Qed.

Lemma hook_raises_without_message r source target net self messages :
  Forall (fun y => role y <> r) messages ->
  exists e,
    cls e = TypeError /\
    hook r source target net self messages
    = {| self_after := self; messages_after := messages;
         ended := Raised e |}.
Proof.
  intros F. unfold hook. rewrite (no_message_of_role F).
  eexists. split; [|reflexivity]. reflexivity.
Qed.

(** X10.  Without a message of its role in the list, a hook raises a
    TypeError before it changes anything: the messages and the filter, its
    stash included, are as before the call. *)
Theorem hooks_raise_without_message
        (net : network) (self : filter) (messages : list message) :
  (Forall (fun y => role y <> user_role) messages ->
   exists e,
     cls e = TypeError /\
     inlet net self messages
     = {| self_after := self; messages_after := messages;
          ended := Raised e |}) /\
  (Forall (fun y => role y <> assistant_role) messages ->
   exists e,
     cls e = TypeError /\
     outlet net self messages
     = {| self_after := self; messages_after := messages;
          ended := Raised e |}).
Proof.
  split; apply hook_raises_without_message.
Qed.

Lemma hooks_raise_without_message_witness :
  (exists e,
      cls e = TypeError /\
      inlet greeting_service fresh_filter []
      = {| self_after := fresh_filter; messages_after := [];
           ended := Raised e |}) /\
  (exists e,
      cls e = TypeError /\
      outlet greeting_service fresh_filter
             [ {| role := user_role; content := hello_message |} ]
      = {| self_after := fresh_filter;
           messages_after :=
             [ {| role := user_role; content := hello_message |} ];
           ended := Raised e |}).
Proof.
  split.
  - apply (proj1 (hooks_raise_without_message greeting_service fresh_filter [])).
    constructor.
  - apply (proj2 (hooks_raise_without_message
                    greeting_service fresh_filter
                    [ {| role := user_role; content := hello_message |} ])).
    constructor; [discriminate|constructor].
Defined.

Lemma hook_overwrites_stash r source target net self messages last :
  get_last_message r messages = Some last ->
  code_blocks (self_after (hook r source target net self messages))
  = find_code_blocks last /\
  the_valves (self_after (hook r source target net self messages))
  = the_valves self.
Proof.
  intros H. unfold hook. rewrite H.
  destruct (negb _); [|split; reflexivity].
  destruct (translated_message _ _ _ _ _ _); split; reflexivity.
Qed.

(** X11.  A hook that finds a message of its role overwrites the stash with
    the code blocks of that message, whatever the stash held before and
    however the call ends, and leaves the configuration as it was. *)
Theorem hooks_overwrite_stash
        (net : network) (self : filter) (messages : list message) :
  (forall last,
      get_last_message user_role messages = Some last ->
      code_blocks (self_after (inlet net self messages))
      = find_code_blocks last /\
      the_valves (self_after (inlet net self messages)) = the_valves self) /\
  (forall last,
      get_last_message assistant_role messages = Some last ->
      code_blocks (self_after (outlet net self messages))
      = find_code_blocks last /\
      the_valves (self_after (outlet net self messages)) = the_valves self).
Proof.
  split; intros last H; now apply hook_overwrites_stash.
Qed.

Lemma hooks_overwrite_stash_witness :
  code_blocks
    (self_after (inlet unreachable
                       {| the_valves := default_valves;
                          code_blocks := [u "stale"] |} chat))
  = [u "print(1)"] /\
  the_valves
    (self_after (inlet unreachable
                       {| the_valves := default_valves;
                          code_blocks := [u "stale"] |} chat))
  = default_valves.
Proof.
  apply (proj1 (hooks_overwrite_stash
                  unreachable
                  {| the_valves := default_valves;
                     code_blocks := [u "stale"] |} chat)
               (u "你好 ```print(1)```")).
  reflexivity.
Defined.

(** Two message lists of the same length, with the same roles, that differ
    at most in messages of the role [r]. *)
Lemma hook_keeps_frame r source target net self messages :
  Forall2 (fun a b => role a = role b /\ (role a <> r -> a = b))
          messages
          (messages_after (hook r source target net self messages)).
Proof.
  assert (Same : forall l : list message,
             Forall2 (fun a b => role a = role b /\ (role a <> r -> a = b))
                     l l).
  { induction l; constructor; auto. }
  destruct (hook_touches_last_only r source target net self messages)
    as [E|(l1 & x & l2 & c & Hl & Hx & _ & E)]; rewrite E.
  - apply Same.
  - rewrite Hl. apply Forall2_app; [apply Same|].
    constructor; [|apply Same].
    split; [reflexivity|]. intros N. contradiction.
Qed.

(** X12.  A hook never adds, removes or reorders messages and never changes
    a role: after the call the list has the same roles in the same order,
    and every message of another role is as it was. *)
Theorem hooks_keep_roles_and_other_messages
        (net : network) (self : filter) (messages : list message) :
  Forall2 (fun a b => role a = role b /\ (role a <> user_role -> a = b))
          messages (messages_after (inlet net self messages)) /\
  Forall2 (fun a b => role a = role b /\ (role a <> assistant_role -> a = b))
          messages (messages_after (outlet net self messages)).
Proof.
  split; apply hook_keeps_frame.
Qed.

Lemma hook_raises_on_other_data r source target net self messages last j :
  source (the_valves self) <> target (the_valves self) ->
  get_last_message r messages = Some last ->
  translate net (api_url (the_valves self))
            (fst (split_text_around_table (mask_code_blocks last)))
            (source (the_valves self)) (target (the_valves self)) = j ->
  (forall d, j <> JStr d) ->
  exists e,
    cls e = TypeError /\
    ended (hook r source target net self messages) = Raised e /\
    messages_after (hook r source target net self messages) = messages.
Proof.
  intros Hne Hlast Hj Hd.
  rewrite (hook_translating r source target net self messages Hne Hlast).
  unfold translated_message.
  destruct (split_text_around_table (mask_code_blocks last))
    as [before table]. simpl in Hj. rewrite Hj.
  destruct j; try (eexists; repeat split; reflexivity).
  exfalso. now apply (Hd s).
Qed.

(** X13.  [translate] hands back whatever the service put under data; when
    that is not a string, the concatenation with the table region raises a
    TypeError in the hook, which changes no message. *)
Theorem hooks_raise_on_data_that_is_no_string
        (net : network) (self : filter) (messages : list message)
        (last : str) (j : json) :
  (source_user (the_valves self) <> target_user (the_valves self) ->
   get_last_message user_role messages = Some last ->
   translate net (api_url (the_valves self))
             (fst (split_text_around_table (mask_code_blocks last)))
             (source_user (the_valves self)) (target_user (the_valves self))
   = j ->
   (forall d, j <> JStr d) ->
   exists e,
     cls e = TypeError /\
     ended (inlet net self messages) = Raised e /\
     messages_after (inlet net self messages) = messages) /\
  (source_assistant (the_valves self) <> target_assistant (the_valves self) ->
   get_last_message assistant_role messages = Some last ->
   translate net (api_url (the_valves self))
             (fst (split_text_around_table (mask_code_blocks last)))
             (source_assistant (the_valves self))
             (target_assistant (the_valves self))
   = j ->
   (forall d, j <> JStr d) ->
   exists e,
     cls e = TypeError /\
     ended (outlet net self messages) = Raised e /\
     messages_after (outlet net self messages) = messages).
Proof.
  split; apply hook_raises_on_other_data.
Qed.

Lemma hooks_raise_on_data_that_is_no_string_witness :
  exists e,
    cls e = TypeError /\
    ended (outlet null_service fresh_filter chat) = Raised e /\
    messages_after (outlet null_service fresh_filter chat) = chat.
Proof.
  apply (proj2 (hooks_raise_on_data_that_is_no_string
                  null_service fresh_filter chat (u "Hello") JNull)).
  - vm_compute. discriminate.
  - reflexivity.
  - reflexivity.
  - intros d. discriminate.
Defined.

Lemma join_masked_chars c l :
  forall tl,
    In c (join_masked l tl) -> In c (join_matched l tl) \/ In c placeholder.
Proof.
  unfold join_masked, join_matched.
  induction l as [|x l IH]; intros tl H; simpl flat_map in *.
  - now left.
  - rewrite <- !app_assoc in H. rewrite <- !app_assoc.
    apply in_app_or in H. destruct H as [H|H].
    + left. apply in_or_app. now left.
    + apply in_app_or in H. destruct H as [H|H]; [now right|].
      destruct (IH tl H) as [K|K]; [|now right].
      left. apply in_or_app. right. apply in_or_app. now right.
Qed.

Lemma mask_keeps_backslash_free text :
  ~ In backslash text -> ~ In backslash (mask_code_blocks text).
Proof.
  intros H K.
  destruct (extract_shape text) as (l & tl & E & _ & _ & Hm).
  rewrite Hm in K. apply join_masked_chars in K. destruct K as [K|K].
  - apply H. now rewrite E.
  - revert K. vm_compute. intuition discriminate.
Qed.

Lemma restore_mask_roundtrip text :
  str_in placeholder_stem text = false ->
  restore_code_blocks (find_code_blocks text) (mask_code_blocks text) = text.
Proof.
  intros H.
  destruct (extract_shape text) as (l & tl & E & F & Hs & Hm).
  rewrite Hs, Hm.
  pose proof (restore_pieces (l := l) [] tl F) as R. simpl app in R.
  rewrite R; [now rewrite <- E|]. now rewrite <- E.
Qed.

Lemma set_content_same (x : message) : set_content x (content x) = x.
Proof.
  now destruct x.
Qed.

Lemma hook_identity_on_echo r source target net self messages last :
  get_last_message r messages = Some last ->
  ~ In backslash last ->
  str_in placeholder_stem last = false ->
  translate net (api_url (the_valves self)) (mask_code_blocks last)
            (source (the_valves self)) (target (the_valves self))
  = JStr (mask_code_blocks last) ->
  messages_after (hook r source target net self messages) = messages /\
  ended (hook r source target net self messages) = Returned.
Proof.
  intros Hlast Hb Hs Ht.
  unfold hook. rewrite Hlast.
  destruct (negb _); [|split; reflexivity].
  unfold translated_message.
  rewrite (@split_without_backslash _ (@mask_keeps_backslash_free last Hb)).
  rewrite Ht, app_nil_r, clean_table_delimiters_id, (@restore_mask_roundtrip _ Hs).
  simpl. split; [|reflexivity].
  destruct (last_message_split r messages)
    as [[F N]|(l1 & x & l2 & Hl & Hx & F & S)]; [congruence|].
  assert (Hc : content x = last) by congruence.
  pose proof (@commit_last r last l1 x l2 Hx F) as K.
  rewrite <- Hl in K. rewrite K, Hl, <- Hc, set_content_same.
  now destruct (str_in failure_tag (content x)).
Qed.

(** X14.  The whole pipeline of a hook is the identity around the call of
    the service: when the located message has no backslash and no
    placeholder stem and the service answers the masked text with that same
    text, the hook returns and every message is as before, code blocks
    restored in place. *)
Theorem hooks_identity_when_service_echoes
        (net : network) (self : filter) (messages : list message)
        (last : str) :
  ~ In backslash last ->
  str_in placeholder_stem last = false ->
  (get_last_message user_role messages = Some last ->
   translate net (api_url (the_valves self)) (mask_code_blocks last)
             (source_user (the_valves self)) (target_user (the_valves self))
   = JStr (mask_code_blocks last) ->
   messages_after (inlet net self messages) = messages /\
   ended (inlet net self messages) = Returned) /\
  (get_last_message assistant_role messages = Some last ->
   translate net (api_url (the_valves self)) (mask_code_blocks last)
             (source_assistant (the_valves self))
             (target_assistant (the_valves self))
   = JStr (mask_code_blocks last) ->
   messages_after (outlet net self messages) = messages /\
   ended (outlet net self messages) = Returned).
Proof.
  intros Hb Hs.
  split; intros Hlast Ht; eapply hook_identity_on_echo; eauto.
Qed.

Lemma hooks_identity_when_service_echoes_witness :
  messages_after (inlet echo_service fresh_filter chat) = chat /\
  ended (inlet echo_service fresh_filter chat) = Returned.
Proof.
  apply (proj1 (@hooks_identity_when_service_echoes
                  echo_service fresh_filter chat (u "你好 ```print(1)```")
                  ltac:(vm_compute; intuition discriminate)
                  ltac:(reflexivity))).
  - reflexivity.
  - reflexivity.
Defined.

Lemma hook_ignores_old_stash r source target net v b1 b2 messages :
  messages_after
    (hook r source target net {| the_valves := v; code_blocks := b1 |}
          messages)
  = messages_after
      (hook r source target net {| the_valves := v; code_blocks := b2 |}
            messages) /\
  ended
    (hook r source target net {| the_valves := v; code_blocks := b1 |}
          messages)
  = ended
      (hook r source target net {| the_valves := v; code_blocks := b2 |}
            messages).
Proof.
  unfold hook. simpl the_valves.
  destruct (get_last_message r messages); [|split; reflexivity].
  destruct (negb _); [|split; reflexivity].
  destruct (translated_message _ _ _ _ _ _); split; reflexivity.
Qed.

(** X15.  What a hook does to the messages and how it ends never depend on
    the stash left by an earlier call: the stash is written before it is
    read. *)
Theorem hooks_ignore_old_stash
        (net : network) (v : valves) (b1 b2 : list str)
        (messages : list message) :
  (messages_after
     (inlet net {| the_valves := v; code_blocks := b1 |} messages)
   = messages_after
       (inlet net {| the_valves := v; code_blocks := b2 |} messages) /\
   ended (inlet net {| the_valves := v; code_blocks := b1 |} messages)
   = ended (inlet net {| the_valves := v; code_blocks := b2 |} messages)) /\
  (messages_after
     (outlet net {| the_valves := v; code_blocks := b1 |} messages)
   = messages_after
       (outlet net {| the_valves := v; code_blocks := b2 |} messages) /\
   ended (outlet net {| the_valves := v; code_blocks := b1 |} messages)
   = ended (outlet net {| the_valves := v; code_blocks := b2 |} messages)).
Proof.
  split; apply hook_ignores_old_stash.
Qed.

(** ** Texts with a backslash *)

Lemma orelse_left a b : a <> None -> Re.orelse a b <> None.
Proof.
  destruct a; [discriminate|contradiction].
Qed.

Lemma orelse_right a b : b <> None -> Re.orelse a b <> None.
Proof.
  destruct a; [discriminate|auto].
Qed.

Lemma greedy_loop_succeeds body k :
  always_succeeds k ->
  forall n, always_succeeds (Re.repeat_loop body true k n).
Proof.
  intros K [|n] p s c; simpl; [apply K|].
  apply orelse_right, K.
Qed.

Lemma lazy_dots_reach w :
  Forall (fun c => c <> newline) w ->
  forall k n prev rest cap,
    length w <= n ->
    (forall p c, k p rest c <> None) ->
    Re.repeat_loop (Re.m (Re.Dot false)) false k n prev (w ++ rest) cap
    <> None.
Proof.
  induction w as [|x w IH]; intros F k n prev rest cap L K.
  - destruct n; simpl; [apply K|]. apply orelse_left, K.
  - destruct n as [|n]; [simpl in L; lia|].
    cbn [Re.repeat_loop]. apply orelse_right.
    change ((x :: w) ++ rest) with (x :: (w ++ rest)).
    cbn [Re.m].
    pose proof (Forall_inv F) as Hx. apply N.eqb_neq in Hx. rewrite Hx.
    cbn [negb orb].
    replace (length (w ++ rest) <? length (x :: w ++ rest)) with true
      by (symmetry; apply Nat.ltb_lt; simpl; lia).
    apply IH; [now apply Forall_inv_tail in F|simpl in L; lia|exact K].
Qed.

Lemma ahead_or_empty_succeeds r k :
  always_succeeds k ->
  always_succeeds (Re.m (Re.Ahead (Re.Alt r Re.Empty)) k).
Proof.
  intros K p s c. cbn [Re.m]. unfold Re.orelse.
  destruct (Re.m r _ p s c) as [[[p1 s1] c1]|]; apply K.
Qed.

(** At the start of a line whose first backslash has no newline before it,
    the table pattern has a match. *)
Lemma table_regex_matches_line prev w rest :
  line_start prev ->
  Forall (fun c => c <> newline) w ->
  Re.match_at table_regex false prev (w ++ backslash :: rest) <> None.
Proof.
  intros Hp F. unfold Re.match_at.
  match goal with
  | |- match Re.m _ ?kf _ _ _ with _ => _ end <> None =>
    assert (M : Re.m table_regex kf prev (w ++ backslash :: rest) None
                <> None)
  end.
  { unfold table_regex.
    match goal with
    | |- Re.m (Re.Seq (Re.Group (Re.Plus true (Re.Alt ?a ?b))) ?l) ?kf
              ?p ?s ?c <> None =>
      change (Re.orelse
                (Re.m a
                   (fun p1 s1 c1 =>
                      Re.repeat_loop
                        (Re.m (Re.Alt a b)) true
                        (fun p2 s2 _ =>
                           Re.m l kf p2 s2
                                (Some (firstn (length s - length s2) s)))
                        (length s1) p1 s1 c1) p s c)
                (Re.m b
                   (fun p1 s1 c1 =>
                      Re.repeat_loop
                        (Re.m (Re.Alt a b)) true
                        (fun p2 s2 _ =>
                           Re.m l kf p2 s2
                                (Some (firstn (length s - length s2) s)))
                        (length s1) p1 s1 c1) p s c) <> None)
    end.
    apply orelse_left.
    match goal with
    | |- Re.m (Re.Seq Re.Bol (Re.Seq lazy_dots (Re.Lit backslash))) ?K
              ?p ?s ?c <> None =>
      assert (HK : always_succeeds K);
        [|assert (G : Re.m (Re.Seq lazy_dots (Re.Lit backslash)) K p s c
                      <> None)]
    end.
    - intros p1 s1 c1. apply greedy_loop_succeeds.
      intros p2 s2 c2. apply ahead_or_empty_succeeds.
      intros p3 s3 c3. simpl. discriminate.
    - unfold lazy_dots.
      change (Re.m (Re.Seq (Re.Star false ?d) ?l) ?K ?p ?s ?c)
        with (Re.repeat_loop (Re.m d) false (Re.m l K) (length s) p s c).
      apply lazy_dots_reach; [exact F|rewrite length_app; lia|].
      intros p c. cbn [Re.m]. rewrite N.eqb_refl. apply HK.
    - cbn [Re.m]. cbn [Re.m] in G.
      destruct Hp as [->| ->]; [exact G|].
      rewrite N.eqb_refl. exact G. }
  destruct (Re.m table_regex _ prev (w ++ backslash :: rest) None)
    as [[[p1 s1] c1]|]; [discriminate|contradiction].
Qed.

(** The scanner finds a match when some position has one. *)
Lemma search_finds r a :
  forall prev b,
    Re.match_at r false (char_before prev a) b <> None ->
    Re.search r false prev (a ++ b) <> None.
Proof.
  induction a as [|x a IH]; intros prev b H.
  - simpl app. simpl in H. destruct b as [|y b]; simpl.
    + destruct (Re.match_at r false prev []) as [[[[mt g] rest] p]|];
        [discriminate|contradiction].
    + destruct (Re.match_at r false prev (y :: b)) as [[[[mt g] rest] p]|];
        [discriminate|contradiction].
  - simpl app. cbn [Re.search].
    destruct (Re.match_at r false prev (x :: a ++ b))
      as [[[[mt g] rest] p]|]; [discriminate|].
    specialize (IH (Some x) b H).
    destruct (Re.search r false (Some x) (a ++ b))
      as [[[[[skip mt] g] rest] p]|]; [discriminate|contradiction].
Qed.

(** The line of the first backslash. *)
Lemma first_backslash_line text :
  forall a0 w0,
    line_start (char_before None a0) ->
    Forall (fun c => c <> newline) w0 ->
    In backslash text ->
    exists a w rest,
      a0 ++ w0 ++ text = a ++ w ++ backslash :: rest /\
      line_start (char_before None a) /\
      Forall (fun c => c <> newline) w.
Proof.
  induction text as [|x text IH]; intros a0 w0 Ha Hw H; [contradiction|].
  destruct (N.eq_dec x backslash) as [->|Nb].
  - exists a0, w0, text. auto.
  - destruct H as [H|H]; [contradiction|].
    destruct (N.eq_dec x newline) as [->|Nn].
    + destruct (IH (a0 ++ w0 ++ [newline]) [] ) as (a & w & rest & E & La & Fw);
        auto.
      * right. unfold char_before. now rewrite !fold_left_app.
      * exists a, w, rest. split; [|auto].
        rewrite <- E. simpl app. now rewrite <- !app_assoc.
    + destruct (IH a0 (w0 ++ [x])) as (a & w & rest & E & La & Fw); auto.
      * apply Forall_app. split; [exact Hw|]. now constructor.
      * exists a, w, rest. split; [|auto].
        rewrite <- E. now rewrite <- !app_assoc.
Qed.

Lemma search_with_backslash text :
  In backslash text -> Re.search table_regex false None text <> None.
Proof.
  intros H.
  destruct (@first_backslash_line text [] [] (or_introl eq_refl)
                                  (Forall_nil _) H)
    as (a & w & rest & E & La & Fw).
  simpl app in E. rewrite E.
  apply search_finds. now apply table_regex_matches_line.
Qed.

Lemma split_with_backslash text :
  In backslash text -> snd (split_text_around_table text) <> [].
Proof.
  intros H. unfold split_text_around_table, Re.split.
  destruct (Re.scan table_regex text) as [l tl] eqn:Sc.
  assert (Hl : l <> []).
  { unfold Re.scan in Sc.
    replace (2 * length text + 2) with (S (2 * length text + 1)) in Sc by lia.
    cbn [Re.finditer] in Sc.
    pose proof (@search_with_backslash text H) as Q.
    destruct (Re.search table_regex false None text)
      as [[[[[skip mt] g] rest] p]|]; [|contradiction].
    destruct (Re.finditer _ _ _ _ _) as [l' tl'].
    injection Sc as <- _. discriminate. }
  unfold Re.scan in Sc.
  apply finditer_sound
    with (P := fun _ => True) (Phi := fun mt g => g = Some mt /\ mt <> [])
    in Sc; [|apply chars_ok_top|].
  - destruct Sc as [_ F]. destruct l as [|x l]; [contradiction|].
    pose proof (Forall_inv F) as (_ & _ & Hg & Hne).
    change (captured x) with (snd x) in Hg.
    simpl. rewrite Hg. exact Hne.
  - intros ma prev s mt g rest p M. eapply table_regex_match; exact M.
Qed.

(** X16.  What decides the split is the backslash, not the bar: the table
    region is empty exactly for the texts without a backslash. *)
Theorem split_finds_region_iff_backslash (text : str) :
  snd (split_text_around_table text) = [] <-> ~ In backslash text.
Proof.
  split.
  - intros E H. now apply (@split_with_backslash text H).
  - intros H. now rewrite (@split_without_backslash text H).
Qed.

(** ** The masked text *)

Lemma lazy_any_reach w :
  forall k n prev rest cap,
    length w <= n ->
    (forall p c, k p rest c <> None) ->
    Re.repeat_loop (Re.m (Re.Dot true)) false k n prev (w ++ rest) cap
    <> None.
Proof.
  induction w as [|x w IH]; intros k n prev rest cap L K.
  - destruct n; simpl; [apply K|]. apply orelse_left, K.
  - destruct n as [|n]; [simpl in L; lia|].
    cbn [Re.repeat_loop]. apply orelse_right.
    change ((x :: w) ++ rest) with (x :: (w ++ rest)).
    cbn [Re.m orb].
    replace (length (w ++ rest) <? length (x :: w ++ rest)) with true
      by (symmetry; apply Nat.ltb_lt; simpl; lia).
    apply IH; [simpl in L; lia|exact K].
Qed.

(** Wherever a text goes on with two fence marks, [code_regex] matches. *)
Lemma code_regex_matches ma prev code rest :
  Re.match_at code_regex ma prev (fence code ++ rest) <> None.
Proof.
  unfold Re.match_at.
  match goal with
  | |- match Re.m _ ?kf _ _ _ with _ => _ end <> None =>
    assert (M : Re.m code_regex kf prev (fence code ++ rest) None <> None)
  end.
  { unfold fence. rewrite <- !app_assoc.
    unfold code_regex, fence_mark. simpl app.
    cbn [Re.m]. unfold backtick. rewrite !N.eqb_refl.
    apply lazy_any_reach; [rewrite length_app; lia|].
    intros p c. cbn [Re.m]. rewrite !N.eqb_refl.
    match goal with
    | |- (if ma && (?a =? ?b) then _ else _) <> None =>
      replace (a =? b) with false
        by (symmetry; apply Nat.eqb_neq; simpl; rewrite length_app; simpl;
            lia)
    end.
    rewrite andb_false_r. discriminate. }
  destruct (Re.m code_regex _ prev (fence code ++ rest) None)
    as [[[p1 s1] c1]|]; [discriminate|contradiction].
Qed.

(** [search] returns the leftmost match: every position it skipped had
    none. *)
Lemma search_leftmost r s :
  forall ma prev skip mt g rest p,
    Re.search r ma prev s = Some (skip, mt, g, rest, p) ->
    forall a b, skip = a ++ b -> b <> [] ->
                exists ma' prev',
                  Re.match_at r ma' prev' (b ++ mt ++ rest) = None.
Proof.
  induction s as [|x s IH]; intros ma prev skip mt g rest p H a b E Hb.
  - simpl in H.
    destruct (Re.match_at r ma prev []) as [[[[mt0 g0] rest0] p0]|];
      [|discriminate].
    injection H as <- _ _ _ _. symmetry in E. apply app_eq_nil in E.
    destruct E. contradiction.
  - pose proof (search_advances _ _ _ _ H) as (Es & _).
    cbn [Re.search] in H.
    destruct (Re.match_at r ma prev (x :: s))
      as [[[[mt0 g0] rest0] p0]|] eqn:M.
    + injection H as <- _ _ _ _. symmetry in E. apply app_eq_nil in E.
      destruct E. contradiction.
    + destruct (Re.search r false (Some x) s)
        as [[[[[skip1 mt1] g1] rest1] p1]|] eqn:Q; [|discriminate].
      injection H as <- <- <- <- <-.
      destruct a as [|y a].
      * simpl in E. subst b. exists ma, prev. now rewrite <- Es.
      * injection E as _ E. eapply IH; eauto.
Qed.

Lemma search_none_everywhere r s :
  forall ma prev,
    Re.search r ma prev s = None ->
    forall a b, s = a ++ b ->
                exists ma' prev', Re.match_at r ma' prev' b = None.
Proof.
  induction s as [|x s IH]; intros ma prev H a b E.
  - symmetry in E. apply app_eq_nil in E. destruct E as [_ ->].
    simpl in H. exists ma, prev.
    destruct (Re.match_at r ma prev []) as [[[[mt0 g0] rest0] p0]|];
      [discriminate|reflexivity].
  - cbn [Re.search] in H.
    destruct (Re.match_at r ma prev (x :: s))
      as [[[[mt0 g0] rest0] p0]|] eqn:M; [discriminate|].
    destruct a as [|y a].
    + simpl in E. subst b. now exists ma, prev.
    + injection E as _ E.
      destruct (Re.search r false (Some x) s)
        as [[[[[skip1 mt1] g1] rest1] p1]|] eqn:Q; [discriminate|].
      eapply IH; eauto.
Qed.

Lemma search_none_from_positions r s :
  (forall a b, s = a ++ b ->
               forall ma prev, Re.match_at r ma prev b = None) ->
  forall ma prev, Re.search r ma prev s = None.
Proof.
  induction s as [|x s IH]; intros H ma prev; cbn [Re.search].
  - now rewrite (H [] [] eq_refl).
  - rewrite (H [] (x :: s) eq_refl), IH; [reflexivity|].
    intros a b E. apply (H (x :: a) b). now rewrite E.
Qed.

(** With enough fuel the scanner stops because nothing is left to find:
    no skipped text and no position of the tail has a match. *)
Lemma finditer_leftmost r n :
  forall (ma : bool) prev s l tl,
    2 * length s + (if ma then 1 else 2) <= n ->
    Re.finditer n r ma prev s = (l, tl) ->
    Forall (fun x =>
              forall a b, skipped x = a ++ b -> b <> [] ->
                          exists rest ma' prev',
                            Re.match_at r ma' prev' (b ++ matched x ++ rest)
                            = None) l /\
    (forall a b, tl = a ++ b ->
                 exists ma' prev', Re.match_at r ma' prev' b = None).
Proof.
  induction n as [|n IH]; intros ma prev s l tl L H.
  - destruct ma; lia.
  - cbn [Re.finditer] in H.
    destruct (Re.search r ma prev s)
      as [[[[[skip mt] g] rest] p]|] eqn:Q.
    + destruct (Re.finditer n r _ p rest) as [l1 tl1] eqn:F.
      injection H as <- <-.
      pose proof (search_advances _ _ _ _ Q) as (Es & Adv).
      apply IH in F.
      * destruct F as [F1 F2]. split; [|exact F2].
        constructor; [|exact F1].
        intros a b E Hb. exists rest.
        eapply search_leftmost; eauto.
      * assert (Ls : length s = length skip + (length mt + length rest)).
        { rewrite Es, !length_app. lia. }
        destruct mt as [|y mt].
        -- destruct ma.
           ++ destruct skip as [|z skip]; [now destruct Adv|].
              simpl in Ls. lia.
           ++ simpl in Ls. lia.
        -- simpl in Ls. destruct ma; lia.
    + injection H as <- <-. split; [constructor|].
      intros a b E. eapply search_none_everywhere; eauto.
Qed.

(** The pieces of the scan for [code_regex]: no skipped text holds a fence
    mark, and the tail holds no fenced region. *)
Lemma code_scan_leftmost text l tl :
  Re.scan code_regex text = (l, tl) ->
  Forall (fun x => str_in fence_mark (skipped x) = false) l /\
  (forall a code rest, tl <> a ++ fence code ++ rest).
Proof.
  intros Sc.
  pose proof (code_scan _ Sc) as (_ & Fc).
  unfold Re.scan in Sc. apply finditer_leftmost in Sc; [|lia].
  destruct Sc as [F T]. split.
  - rewrite Forall_forall in *. intros x Hx.
    destruct (Fc x Hx) as (code & _ & Hm).
    destruct (str_in fence_mark (skipped x)) eqn:I; [exfalso|reflexivity].
    apply str_in_split in I. destruct I as (a & b & E).
    destruct (F x Hx a (fence_mark ++ b) E) as (rest & ma & prev & N);
      [discriminate|].
    revert N. rewrite Hm. unfold fence at 1.
    replace ((fence_mark ++ b) ++ (fence_mark ++ code ++ fence_mark) ++ rest)
      with (fence (b ++ fence_mark ++ code) ++ rest)
      by (unfold fence; now rewrite <- !app_assoc).
    apply code_regex_matches.
  - intros a code rest E.
    destruct (T a _ E) as (ma & prev & N).
    revert N. apply code_regex_matches.
Qed.

Lemma placeholder_has_no_backtick a b :
  placeholder = a ++ backtick :: b -> False.
Proof.
  intros E.
  assert (I : In backtick placeholder).
  { rewrite E. apply in_or_app. right. now left. }
  revert I. vm_compute. intuition discriminate.
Qed.

(** No fenced region starts in a skipped text or in the placeholder that
    follows it. *)
Lemma masked_has_no_block l :
  forall tl,
    Forall (fun x => str_in fence_mark (skipped x) = false) l ->
    (forall a code rest, tl <> a ++ fence code ++ rest) ->
    forall a code rest, join_masked l tl <> a ++ fence code ++ rest.
Proof.
  induction l as [|x l IH]; intros tl F T a code rest E.
  - now apply (T a code rest).
  - pose proof (Forall_inv F) as Hx. cbv beta in Hx.
    apply Forall_inv_tail in F.
    unfold join_masked in E. simpl flat_map in E.
    rewrite <- !app_assoc in E.
    fold (join_masked l tl) in E.
    apply app_eq_app in E. destruct E as (m1 & [[E1 E2]|[E1 E2]]).
    + (* the region starts in the skipped text *)
      destruct m1 as [|c1 [|c2 [|c3 m1]]].
      * simpl in E2. unfold fence, fence_mark, placeholder in E2.
        simpl in E2. discriminate.
      * unfold fence, fence_mark, placeholder in E2. simpl in E2.
        discriminate.
      * unfold fence, fence_mark, placeholder in E2. simpl in E2.
        discriminate.
      * unfold fence, fence_mark in E2. simpl in E2.
        injection E2 as <- <- <- _.
        rewrite E1 in Hx.
        change (96%N :: 96%N :: 96%N :: m1) with (fence_mark ++ m1) in Hx.
        rewrite str_in_mid in Hx. discriminate.
    + apply app_eq_app in E2.
      destruct E2 as (m2 & [[E3 E4]|[E3 E4]]).
      * (* the region starts in the placeholder *)
        destruct m2 as [|c m2].
        -- simpl in E4.
           apply (IH tl F T [] code rest). now rewrite <- E4.
        -- unfold fence, fence_mark in E4. simpl in E4.
           injection E4 as <- _.
           now apply placeholder_has_no_backtick in E3.
      * (* the region starts after the placeholder *)
        apply (IH tl F T m2 code rest). exact E4.
Qed.

Lemma masked_text_has_no_match text :
  forall ma prev,
    Re.search code_regex ma prev (mask_code_blocks text) = None.
Proof.
  apply search_none_from_positions. intros a b E ma prev.
  destruct (Re.match_at code_regex ma prev b)
    as [[[[mt g] rest] p]|] eqn:M; [exfalso|reflexivity].
  destruct (code_regex_match _ _ _ M) as (code & _ & Hm).
  apply match_at_sound with (P := fun _ => True) in M;
    [|apply chars_ok_top].
  destruct M as (Eb & _). subst b mt.
  unfold mask_code_blocks, Re.sub in E.
  destruct (Re.scan code_regex text) as [l tl] eqn:Sc.
  apply code_scan_leftmost in Sc. destruct Sc as [F T].
  now apply (@masked_has_no_block l tl F T a code rest).
Qed.

(** X17.  Masking leaves no fenced region behind: the masked text has no
    code block, and masking it again changes nothing. *)
Theorem masked_text_has_no_code_block (text : str) :
  find_code_blocks (mask_code_blocks text) = [] /\
  mask_code_blocks (mask_code_blocks text) = mask_code_blocks text.
Proof.
  assert (G : forall t,
             (forall ma prev, Re.search code_regex ma prev t = None) ->
             find_code_blocks t = [] /\ mask_code_blocks t = t).
  { intros t H.
    unfold find_code_blocks, mask_code_blocks, Re.findall, Re.sub.
    rewrite (scan_without_match code_regex t H). split; reflexivity. }
  apply G, masked_text_has_no_match.
Qed.

(** ** Restoring into a translated text *)

Lemma restore_translated_pieces (parts : list (str * str)) (tl : str) :
  str_in placeholder_stem
         (flat_map (fun fc => fst fc ++ fence (snd fc)) parts ++ tl) = false ->
  restore_code_blocks
    (map snd parts)
    (flat_map (fun fc => fst fc ++ placeholder) parts ++ tl)
  = flat_map (fun fc => fst fc ++ fence (snd fc)) parts ++ tl.
Proof.
  intros H.
  pose (l := map (fun fc : str * str =>
                    (fst fc, fence (snd fc), Some (snd fc)) : piece) parts).
  assert (Es : stash_of l = map snd parts).
  { unfold l, stash_of. rewrite map_map. reflexivity. }
  assert (Em : join_masked l tl
               = flat_map (fun fc => fst fc ++ placeholder) parts ++ tl).
  { unfold l, join_masked. f_equal. clear.
    induction parts as [|fc parts IH]; [reflexivity|].
    simpl. now rewrite IH. }
  assert (Eo : join_matched l tl
               = flat_map (fun fc => fst fc ++ fence (snd fc)) parts ++ tl).
  { unfold l, join_matched. f_equal. clear.
    induction parts as [|fc parts IH]; [reflexivity|].
    simpl. now rewrite IH. }
  assert (F : Forall code_piece l).
  { unfold l. apply Forall_map, Forall_forall. intros fc _.
    exists (snd fc). split; reflexivity. }
  rewrite <- Es, <- Em, <- Eo.
  apply (restore_pieces (l := l) [] tl F). simpl app. now rewrite Eo.
Qed.

(** X18.  Restoring works on a translated text as on the original: when the
    text holds one placeholder for each entry of the stash and the result
    holds no placeholder stem, every block goes back, fenced, to the place
    of its placeholder, in the order of the stash, and the text around the
    placeholders is kept as the translation has it. *)
Theorem restore_fills_placeholders_in_order
        (parts : list (str * str)) (tl : str) :
  str_in placeholder_stem
         (flat_map (fun fc => fst fc ++ fence (snd fc)) parts ++ tl) = false ->
  restore_code_blocks
    (map snd parts)
    (flat_map (fun fc => fst fc ++ placeholder) parts ++ tl)
  = flat_map (fun fc => fst fc ++ fence (snd fc)) parts ++ tl.
Proof.
  apply restore_translated_pieces.
Qed.

Lemma restore_fills_placeholders_in_order_witness :
  restore_code_blocks
    [u "print(1)"; u "print(2)"]
    (u "先 __CODE_BLOCK__ 后 __CODE_BLOCK__ 完")
  = u "先 ```print(1)``` 后 ```print(2)``` 完".
Proof.
  apply (restore_fills_placeholders_in_order
           [(u "先 ", u "print(1)"); (u " 后 ", u "print(2)")] (u " 完")).
  reflexivity.
Defined.
